(** * The workload sequencer of the Determined harness

    A shallow embedding of [harness/determined/layers/_workload_sequencer.py]:
    the [WorkloadSequencer] that fuses searcher operations, the validation
    cadence and the checkpoint cadence into one stream of workloads.

    Python integers are unbounded and are modelled by [Z]; [//] on integers is
    floor division, which is [Z.div].  The generator protocol is modelled by a
    state-and-exception monad over a [World] that carries the sequencer
    object, the set of completed searcher operations and the chronological
    trace of everything the generator did: every workload it yielded, every
    report it made to the master and every answer it got back. *)

From Stdlib Require Import ZArith Lia Bool.
From stdpp Require Import base decidable option list gmap strings.

Local Open Scope Z_scope.

(** ** Constants *)

(** [sys.maxsize] of a 64-bit CPython. *)
Definition sys_maxsize : Z := 9223372036854775807.

Definition INVALID_HP : string := "INVALID_HP"%string.
Definition USER_CANCELED : string := "USER_CANCELED"%string.
Definition policy_best : string := "best"%string.
Definition policy_all : string := "all"%string.

(** ** Exceptions and results *)

Inductive Exception : Type :=
| ShouldExit
| AssertionError (msg : string)
| ValueError (msg : string)
| CheckFailedError (msg : string)
| KeyError (key : string)
| TypeError
| AttributeError
| UnboundLocalError.

(** The result of a call that returns or raises. *)
Inductive Result (A : Type) : Type :=
| Ok (a : A)
| Raise (e : Exception).
Arguments Ok {A} a.
Arguments Raise {A} e.

(** The outcome of running a piece of the generator: it returns, it raises,
    or it exhausts the fuel that bounds the [while] loop of the model. *)
Inductive Outcome (A : Type) : Type :=
| Returns (a : A)
| Raises (e : Exception)
| OutOfFuel.
Arguments Returns {A} a.
Arguments Raises {A} e.
Arguments OutOfFuel {A}.

(** ** Searcher operations and workloads *)

Module SearcherOp.
(** [_generic.Unit]. *)
Inductive Unit : Type := BATCHES | RECORDS | EPOCHS.

(** A searcher operation handed out by [searcher.ops()].  [op_id] is the
    identity of the Python object (its position in the feed); the mutable
    [_completed] flag lives in the [World]. *)
Record t : Type := Build { op_id : nat; unit : Unit; length : Z }.
End SearcherOp.

Module Workload.
Inductive Kind : Type := RUN_STEP | COMPUTE_VALIDATION_METRICS | CHECKPOINT_MODEL.

Record t : Type := Build {
  kind : Kind;
  e_id : Z;
  t_id : Z;
  s_id : Z;
  num_batches : Z;
  total_batches_processed : Z
}.
End Workload.

(** ** The persisted counters: [WorkloadSequencer.SavableState] *)

Record SavableState : Type := {
  trial_id : Z;
  last_ckpt : Z;
  latest_batch : Z;
  total_records : option Z;
  step_id : Z;
  last_val : Z
}.

(** The dictionary handed to [load_state]: every key may be missing, and
    ["total_records"] may be present with the value [None]. *)
Record Snapshot : Type := {
  snap_trial_id : option Z;
  snap_last_ckpt : option Z;
  snap_latest_batch : option Z;
  snap_total_records : option (option Z);
  snap_step_id : option Z;
  snap_last_val : option Z
}.

(** A length as the experiment configuration gives it: the keyword
    arguments of [as_batches]. *)
Record LengthSpec : Type := {
  spec_batches : option Z;
  spec_records : option Z;
  spec_epochs : option Z
}.

(** The sequencer object: the fields [__init__] computes once, and the
    mutable [state]. *)
Record Sequencer : Type := {
  _trial_id : Z;
  _exp_id : Z;
  val_from_previous_run : option Z;
  want_initial_val : bool;
  ckpt_policy : string;
  state : SavableState;
  records_per_epoch : option Z;
  global_batch_size : Z;
  min_val_period_batches : Z;
  min_ckpt_period_batches : Z;
  (* the parts of [env.experiment_config] read later on *)
  scheduling_unit : Z;
  searcher_metric_name : string;
  smaller_is_better : bool
}.

Definition set_state (st : SavableState) (self : Sequencer) : Sequencer :=
  {| _trial_id := _trial_id self;
     _exp_id := _exp_id self;
     val_from_previous_run := val_from_previous_run self;
     want_initial_val := want_initial_val self;
     ckpt_policy := ckpt_policy self;
     state := st;
     records_per_epoch := records_per_epoch self;
     global_batch_size := global_batch_size self;
     min_val_period_batches := min_val_period_batches self;
     min_ckpt_period_batches := min_ckpt_period_batches self;
     scheduling_unit := scheduling_unit self;
     searcher_metric_name := searcher_metric_name self;
     smaller_is_better := smaller_is_better self |}.

Definition set_periods (v c : Z) (self : Sequencer) : Sequencer :=
  {| _trial_id := _trial_id self;
     _exp_id := _exp_id self;
     val_from_previous_run := val_from_previous_run self;
     want_initial_val := want_initial_val self;
     ckpt_policy := ckpt_policy self;
     state := state self;
     records_per_epoch := records_per_epoch self;
     global_batch_size := global_batch_size self;
     min_val_period_batches := v;
     min_ckpt_period_batches := c;
     scheduling_unit := scheduling_unit self;
     searcher_metric_name := searcher_metric_name self;
     smaller_is_better := smaller_is_better self |}.

Definition with_last_ckpt (v : Z) (st : SavableState) : SavableState :=
  {| trial_id := trial_id st; last_ckpt := v; latest_batch := latest_batch st;
     total_records := total_records st; step_id := step_id st;
     last_val := last_val st |}.

Definition with_last_val (v : Z) (st : SavableState) : SavableState :=
  {| trial_id := trial_id st; last_ckpt := last_ckpt st;
     latest_batch := latest_batch st; total_records := total_records st;
     step_id := step_id st; last_val := v |}.

(** ** [SavableState.__init__], [get_state], [load_state] *)

(** The constructor applied to the unpacked dictionary: missing keys take
    the defaults of the constructor; [trial_id] has none, and is known to be
    present where this is called. *)
Definition SavableState_init (tid : Z) (snap : Snapshot) : SavableState :=
  {| trial_id := tid;
     last_ckpt := default 0 (snap_last_ckpt snap);
     latest_batch := default 0 (snap_latest_batch snap);
     total_records := default (Some 0) (snap_total_records snap);
     step_id := default 0 (snap_step_id snap);
     last_val := default 0 (snap_last_val snap) |}.

(** [vars(self.state)]. *)
Definition vars (st : SavableState) : Snapshot :=
  {| snap_trial_id := Some (trial_id st);
     snap_last_ckpt := Some (last_ckpt st);
     snap_latest_batch := Some (latest_batch st);
     snap_total_records := Some (total_records st);
     snap_step_id := Some (step_id st);
     snap_last_val := Some (last_val st) |}.

Definition get_state (self : Sequencer) : Snapshot := vars (state self).

Definition load_state (snap : Snapshot) (self : Sequencer) : Sequencer :=
  match snap_trial_id snap with
  | Some tid =>
      if negb (tid =? _trial_id self) then self
      else
        let st := SavableState_init tid snap in
        if bool_decide (Some (latest_batch st) = val_from_previous_run self)
        then set_state (with_last_val (latest_batch st) st) self
        else set_state st self
  | None => self
  end.

(** ** [as_batches] *)

Definition is_set (o : option Z) : Z :=
  match o with Some _ => 1 | None => 0 end.

Definition as_batches (self : Sequencer) (batches records epochs : option Z)
  : Result Z :=
  if negb (is_set batches + is_set records + is_set epochs =? 1)
  then Raise (ValueError "invalid length")
  else
    match batches with
    | Some b => Ok b
    | None =>
      match records with
      | Some r =>
          if negb (0 <? global_batch_size self)
          then Raise (CheckFailedError "global_batch_size must be positive")
          else Ok (Z.max (r / global_batch_size self) 1)
      | None =>
        match epochs with
        | Some e =>
            match records_per_epoch self with
            | None => Raise (CheckFailedError "length must be an integer")
            | Some rpe =>
                if negb (0 <? global_batch_size self)
                then Raise (CheckFailedError "global_batch_size must be positive")
                else Ok (Z.max ((e * rpe) / global_batch_size self) 1)
            end
        | None => Raise (ValueError "invalid length")
        end
      end
    end.

Definition as_batches_spec (self : Sequencer) (l : LengthSpec) : Result Z :=
  as_batches self (spec_batches l) (spec_records l) (spec_epochs l).

(** ** [WorkloadSequencer.__init__] *)

(** What [__init__] reads from [env], the experiment configuration and the
    master: the arguments of the constructor of the model. *)
Record EnvContext : Type := {
  det_trial_id : Z;
  det_experiment_id : Z;
  last_validation : option Z;           (* training.get_last_validation() *)
  perform_initial_validation : bool;
  checkpoint_policy : string;
  env_records_per_epoch : option Z;
  env_global_batch_size : Z;
  min_validation_period : LengthSpec;
  min_checkpoint_period : LengthSpec;
  env_scheduling_unit : Z;
  searcher_metric : string;
  searcher_smaller_is_better : bool
}.

Definition fresh_state (tid : Z) : SavableState :=
  {| trial_id := tid; last_ckpt := 0; latest_batch := 0;
     total_records := Some 0; step_id := 0; last_val := 0 |}.

(** The periods are computed by [as_batches] on the half-built object, which
    already has [records_per_epoch] and [global_batch_size]. *)
Definition init (env : EnvContext) : Result Sequencer :=
  let self0 :=
    {| _trial_id := det_trial_id env;
       _exp_id := det_experiment_id env;
       val_from_previous_run := last_validation env;
       want_initial_val := perform_initial_validation env;
       ckpt_policy := checkpoint_policy env;
       state := fresh_state (det_trial_id env);
       records_per_epoch := env_records_per_epoch env;
       global_batch_size := env_global_batch_size env;
       min_val_period_batches := 0;
       min_ckpt_period_batches := 0;
       scheduling_unit := env_scheduling_unit env;
       searcher_metric_name := searcher_metric env;
       smaller_is_better := searcher_smaller_is_better env |} in
  match as_batches_spec self0 (min_validation_period env) with
  | Ok v =>
      match as_batches_spec self0 (min_checkpoint_period env) with
      | Ok c =>
          let v' := if v <? 1 then sys_maxsize else v in
          let c' := if c <? 1 then sys_maxsize else c in
          Ok (set_periods v' c' self0)
      | Raise e => Raise e
      end
  | Raise e => Raise e
  end.

(** ** Pure observers of the sequencer *)

Definition batches_until_val (self : Sequencer) : Z :=
  last_val (state self) + min_val_period_batches self - latest_batch (state self).

Definition batches_until_ckpt (self : Sequencer) : Z :=
  last_ckpt (state self) + min_ckpt_period_batches self - latest_batch (state self).

Definition when_unit (u : SearcherOp.Unit) (op : SearcherOp.t) : option Z :=
  match u, SearcherOp.unit op with
  | SearcherOp.BATCHES, SearcherOp.BATCHES => Some (SearcherOp.length op)
  | SearcherOp.RECORDS, SearcherOp.RECORDS => Some (SearcherOp.length op)
  | SearcherOp.EPOCHS, SearcherOp.EPOCHS => Some (SearcherOp.length op)
  | _, _ => None
  end.

Definition op_target (self : Sequencer) (op : SearcherOp.t) : Result Z :=
  as_batches self (when_unit SearcherOp.BATCHES op)
                  (when_unit SearcherOp.RECORDS op)
                  (when_unit SearcherOp.EPOCHS op).

Definition batches_until_op_complete (self : Sequencer) (op : SearcherOp.t)
  : Result Z :=
  match op_target self op with
  | Ok t => Ok (t - latest_batch (state self))
  | Raise e => Raise e
  end.

(** [workload.Workload(kind=..., e_id=self._exp_id, t_id=self._trial_id,
    s_id=..., num_batches=..., total_batches_processed=self.state.latest_batch)]. *)
Definition make_workload (k : Workload.Kind) (self : Sequencer)
    (sid nb : Z) : Workload.t :=
  {| Workload.kind := k;
     Workload.e_id := _exp_id self;
     Workload.t_id := _trial_id self;
     Workload.s_id := sid;
     Workload.num_batches := nb;
     Workload.total_batches_processed := latest_batch (state self) |}.

Definition checkpoint_is_current (self : Sequencer) : bool :=
  last_ckpt (state self) =? latest_batch (state self).

Definition validation_is_current (self : Sequencer) : bool :=
  last_val (state self) =? latest_batch (state self).

(** ** The monad of the generator

    A computation takes the world it starts in and gives its outcome and the
    world it leaves. *)

Definition Gen (W A : Type) : Type := W -> Outcome A * W.

Definition ret {W A} (a : A) : Gen W A := fun w => (Returns a, w).

Definition bind {W A B} (m : Gen W A) (k : A -> Gen W B) : Gen W B :=
  fun w =>
    match m w with
    | (Returns a, w') => k a w'
    | (Raises e, w') => (Raises e, w')
    | (OutOfFuel, w') => (OutOfFuel, w')
    end.

Definition raise {W A} (e : Exception) : Gen W A := fun w => (Raises e, w).

(** A call of a function that returns or raises. *)
Definition lift {W A} (r : Result A) : Gen W A :=
  fun w => match r with Ok a => (Returns a, w) | Raise e => (Raises e, w) end.

Definition out_of_fuel {W A} : Gen W A := fun w => (OutOfFuel, w).

Definition when {W} (b : bool) (m : Gen W unit) : Gen W unit :=
  if b then m else ret tt.

(** [try: body except ShouldExit: handler]. *)
Definition try_except_ShouldExit {W} (body handler : Gen W unit) : Gen W unit :=
  fun w =>
    match body w with
    | (Raises ShouldExit, w') => handler w'
    | r => r
    end.

(** [try: body finally: cleanup], for a cleanup that cannot fail. *)
Definition try_finally {W} (body cleanup : Gen W unit) : Gen W unit :=
  fun w =>
    match body w with
    | (r, w') => (r, snd (cleanup w'))
    end.

Declare Scope gen_scope.
Delimit Scope gen_scope with gen.
Notation "x <- c ;; k" := (bind c (fun x => k))
  (at level 100, c at next level, k at level 200, right associativity) : gen_scope.
Notation "c ;; k" := (bind c (fun _ => k))
  (at level 100, k at level 200, right associativity) : gen_scope.
Local Open Scope gen_scope.

(** ** Responses, events and the world of the generator *)

Section Sequencing.

(** Metric values are Python floats, of which the sequencer only uses the
    order: the development is parametric in their type. *)
Context {metric : Type}.

(** [storage_metadata] of a checkpoint response. *)
Record StorageMetadata : Type := {
  storage_id : string;
  framework : string;
  format : string
}.

(** What a response has under ["metrics"]: a dictionary, of which this file
    reads the keys ["num_inputs"] and ["validation_metrics"] (the keys
    ["avg_metrics"] and ["batch_metrics"] are only passed on to the master),
    or the storage metadata object of a checkpoint. *)
Inductive Payload : Type :=
| PDict (num_inputs : option Z) (validation_metrics : option (gmap string metric))
| PStorage (sm : StorageMetadata).

(** [workload.Metrics]: the response dictionary. *)
Record Metrics : Type := {
  exited_reason : option string;
  metrics : option Payload
}.

(** [workload.Response]. *)
Inductive Response : Type :=
| Skipped
| RMetrics (m : Metrics).

(** What [op.report_progress] is given: an integer, or for epochs the true
    quotient of two integers, kept as the pair. *)
Inductive Progress : Type :=
| PInt (n : Z)
| PRatio (num den : Z).

Inductive Event : Type :=
| EPreemptionStart
| EPreemptionClose
| ESetStatus (s : string)
| EYield (w : Workload.t)
| EResume (rs : list Response)
| EReportEarlyExit
| EReportTrainingMetrics (latest : Z) (total : option Z)
| EReportProgress (op : nat) (p : Progress)
| EComplete (op : nat) (m : metric)
| EGetBestValidation (best : option metric)
| EReportValidationMetrics (latest : Z) (total : option Z) (ms : gmap string metric)
| EReportCheckpoint (sm : StorageMetadata) (latest : Z)
| EShouldPreempt (b : bool).

(** The collaborators the generator talks to, as functions of the history
    so far: [executor] gives the calls the consumer makes to the response
    function between a yield and the next resumption, in order; [float_lt]
    is [<] on metric values. *)
Record Environment : Type := {
  executor : list Event -> list Response;
  should_preempt : list Event -> bool;
  get_experiment_best_validation : list Event -> option metric;
  float_lt : metric -> metric -> bool
}.

Record World : Type := {
  io : Environment;
  self : Sequencer;
  completed : gset nat;        (* the operations whose [_completed] is set *)
  trace : list Event
}.

Definition M (A : Type) : Type := Gen World A.

Definition get_self : M Sequencer := fun w => (Returns (self w), w).

Definition get_io : M Environment := fun w => (Returns (io w), w).

Definition emit (e : Event) : M unit :=
  fun w => (Returns tt, {| io := io w; self := self w; completed := completed w;
                      trace := trace w ++ [e] |}).

Definition modify_state (f : SavableState -> SavableState) : M unit :=
  fun w => (Returns tt, {| io := io w;
                      self := set_state (f (state (self w))) (self w);
                      completed := completed w; trace := trace w |}).

(** ** [yield_and_await_response] *)

(** The response function: it refuses [Skipped] and otherwise stores its
    argument in [out], whatever [out] held before. *)
Definition respond (r : Response) (out : option Metrics)
  : Result (option Metrics) :=
  match r with
  | Skipped => Raise (AssertionError "not isinstance(r, workload.Skipped)")
  | RMetrics m => Ok (Some m)
  end.

(** The consumer's calls to the response function, in order. *)
Fixpoint respond_all (rs : list Response) (out : option Metrics)
  : Result (option Metrics) :=
  match rs with
  | [] => Ok out
  | r :: rs' =>
      match respond r out with
      | Ok out' => respond_all rs' out'
      | Raise e => Raise e
      end
  end.

(** [yield wkld, respond]: the generator is suspended on the workload, and
    is resumed after the consumer has made the calls [rs] of the response
    function. *)
Definition yield_to_consumer (wkld : Workload.t) : M (list Response) :=
  fun w =>
    let rs := executor (io w) (trace w ++ [EYield wkld]) in
    (Returns rs, {| io := io w; self := self w; completed := completed w;
                    trace := trace w ++ [EYield wkld; EResume rs] |}).

(** The workload is yielded with the response function; the consumer calls
    that function as the [executor] says and resumes the generator, which
    then insists that [out] was set.  An assertion that fails inside the
    response function is raised in the consumer, which ends the run. *)
Definition yield_and_await_response (wkld : Workload.t) : M Metrics :=
  rs <- yield_to_consumer wkld;;
  out <- lift (respond_all rs None);;
  match out with
  | None => raise (AssertionError "out is not None")
  | Some r => ret r
  end.

(** ** The methods of the sequencer *)

Definition exited_with (reason : string) (response : Metrics) : bool :=
  match exited_reason response with
  | Some r => String.eqb r reason
  | None => false
  end.

(** [self.preemption.should_preempt(chief_only=True)]. *)
Definition poll_should_preempt : M bool :=
  fun w =>
    let b := should_preempt (io w) (trace w) in
    (Returns b, {| io := io w; self := self w; completed := completed w;
                   trace := trace w ++ [EShouldPreempt b] |}).

Definition check_for_preemption : M unit :=
  b <- poll_should_preempt;;
  if b then raise ShouldExit else ret tt.

(** [self.training.get_experiment_best_validation()]. *)
Definition ask_experiment_best_validation : M (option metric) :=
  fun w =>
    let best := get_experiment_best_validation (io w) (trace w) in
    (Returns best, {| io := io w; self := self w; completed := completed w;
                      trace := trace w ++ [EGetBestValidation best] |}).

(** Modelled from the spec: [SearcherOp.complete] and the [_completed] flag
    of [_generic.SearcherOp], which is not part of this file.  Completing
    reports the metric to the searcher and sets the flag. *)
Definition op_complete (op : SearcherOp.t) (m : metric) : M unit :=
  emit (EComplete (SearcherOp.op_id op) m);;
  fun w => (Returns tt, {| io := io w; self := self w;
                      completed := {[SearcherOp.op_id op]} ∪ completed w;
                      trace := trace w |}).

Definition op_completed (op : SearcherOp.t) : M bool :=
  fun w => (Returns (bool_decide (SearcherOp.op_id op ∈ completed w)), w).

(** [response.get("metrics", {}).get("num_inputs")]. *)
Definition get_num_inputs (response : Metrics) : Result (option Z) :=
  match metrics response with
  | None => Ok None
  | Some (PDict n _) => Ok n
  | Some (PStorage _) => Raise AttributeError
  end.

(** [response["metrics"]["validation_metrics"]]. *)
Definition get_validation_metrics (response : Metrics)
  : Result (gmap string metric) :=
  match metrics response with
  | None => Raise (KeyError "metrics")
  | Some (PDict _ (Some vm)) => Ok vm
  | Some (PDict _ None) => Raise (KeyError "validation_metrics")
  | Some (PStorage _) => Raise TypeError
  end.

(** [response["metrics"]], of which the attributes of a storage metadata
    object are then read. *)
Definition get_storage_metadata (response : Metrics) : Result StorageMetadata :=
  match metrics response with
  | None => Raise (KeyError "metrics")
  | Some (PDict _ _) => Raise AttributeError
  | Some (PStorage sm) => Ok sm
  end.

Definition train_update (num_batches : Z) (num_inputs : option Z)
    (st : SavableState) : SavableState :=
  {| trial_id := trial_id st;
     last_ckpt := last_ckpt st;
     latest_batch := latest_batch st + num_batches;
     total_records :=
       match num_inputs, total_records st with
       | Some n, Some t => Some (t + n)
       | _, _ => None
       end;
     step_id := step_id st + 1;
     last_val := last_val st |}.

Definition train (num_batches : Z) (op : SearcherOp.t) : M unit :=
  emit (ESetStatus "training");;
  s <- get_self;;
  let wkld := make_workload Workload.RUN_STEP s (step_id (state s) + 1) num_batches in
  response <- yield_and_await_response wkld;;
  if exited_with INVALID_HP response then
    emit EReportEarlyExit;;
    raise ShouldExit
  else
    num_inputs <- lift (get_num_inputs response);;
    modify_state (train_update num_batches num_inputs);;
    s <- get_self;;
    emit (EReportTrainingMetrics (latest_batch (state s)) (total_records (state s)));;
    progress <-
      match SearcherOp.unit op with
      | SearcherOp.BATCHES => ret (PInt (latest_batch (state s)))
      | SearcherOp.RECORDS =>
          ret (PInt (global_batch_size s * latest_batch (state s)))
      | SearcherOp.EPOCHS =>
          b <- lift (as_batches s None None (Some (SearcherOp.length op)));;
          ret (PRatio (latest_batch (state s)) b)
      end;;
    emit (EReportProgress (SearcherOp.op_id op) progress);;
    if exited_with USER_CANCELED response then raise ShouldExit
    else check_for_preemption.

Definition is_best_validation (env : Environment) (s : Sequencer)
    (now : metric) (before : option metric) : bool :=
  match before with
  | None => true
  | Some b =>
      if smaller_is_better s then float_lt env now b else float_lt env b now
  end.

Definition checkpoint (already_exiting : bool) : M unit :=
  emit (ESetStatus "checkpointing");;
  modify_state (fun st => with_last_ckpt (latest_batch st) st);;
  s <- get_self;;
  let wkld := make_workload Workload.CHECKPOINT_MODEL s (step_id (state s)) 0 in
  response <- yield_and_await_response wkld;;
  storage_metadata <- lift (get_storage_metadata response);;
  emit (EReportCheckpoint storage_metadata (latest_batch (state s)));;
  if already_exiting then ret tt
  else
    when (exited_with INVALID_HP response) (emit EReportEarlyExit);;
    match exited_reason response with
    | Some _ => raise ShouldExit
    | None => check_for_preemption
    end.

(** [metrics[searcher_metric_name]]. *)
Definition get_searcher_metric (s : Sequencer) (ms : gmap string metric)
  : Result metric :=
  match ms !! searcher_metric_name s with
  | Some v => Ok v
  | None => Raise (KeyError (searcher_metric_name s))
  end.

(** [best_validation_before] is a local that is only bound under the first
    test; reading it unbound is an [UnboundLocalError]. *)
Definition read_local {A} (v : option A) : M A :=
  match v with
  | Some a => ret a
  | None => raise UnboundLocalError
  end.

Definition validate (op : option SearcherOp.t) : M unit :=
  emit (ESetStatus "validating");;
  s <- get_self;;
  let wkld := make_workload Workload.COMPUTE_VALIDATION_METRICS s (step_id (state s)) 0 in
  response <- yield_and_await_response wkld;;
  if exited_with INVALID_HP response then
    emit EReportEarlyExit;;
    raise ShouldExit
  else
    ms <- lift (get_validation_metrics response);;
    searcher_metric <- lift (get_searcher_metric s ms);;
    match op with
    | Some o =>
        r <- lift (batches_until_op_complete s o);;
        when (r <? 1) (op_complete o searcher_metric)
    | None => ret tt
    end;;
    best_validation_before <-
      (if String.eqb (ckpt_policy s) policy_best && negb (checkpoint_is_current s)
       then
         best <- ask_experiment_best_validation;;
         ret (Some best)
       else ret None);;
    modify_state (fun st => with_last_val (latest_batch st) st);;
    s <- get_self;;
    emit (EReportValidationMetrics (latest_batch (state s))
                                   (total_records (state s)) ms);;
    if exited_with USER_CANCELED response then raise ShouldExit
    else
      (if negb (checkpoint_is_current s) then
         if String.eqb (ckpt_policy s) policy_all then checkpoint false
         else if String.eqb (ckpt_policy s) policy_best then
           before <- read_local best_validation_before;;
           env <- get_io;;
           when (is_best_validation env s searcher_metric before)
                (checkpoint false)
         else ret tt
       else ret tt);;
      check_for_preemption.

(** ** [__iter__] *)

(** The size of the next training step: [max(1, min(...))]. *)
Definition next_num_batches (s : Sequencer) (op : SearcherOp.t) : Result Z :=
  match batches_until_op_complete s op with
  | Ok r =>
      Ok (Z.max 1 (Z.min (batches_until_ckpt s)
                  (Z.min (batches_until_val s)
                  (Z.min r (scheduling_unit s)))))
  | Raise e => Raise e
  end.

(** "Pause training to validate?" *)
Definition pause_to_validate (op : SearcherOp.t) : M unit :=
  s <- get_self;;
  when (batches_until_val s <? 1) (validate (Some op)).

(** "Pause training to checkpoint?" *)
Definition pause_to_checkpoint : M unit :=
  s <- get_self;;
  when (batches_until_ckpt s <? 1) (checkpoint false).

(** "Do some training." *)
Definition do_some_training (op : SearcherOp.t) : M unit :=
  s <- get_self;;
  n <- lift (next_num_batches s op);;
  train n op.

(** The [while] loop of one operation, bounded by [fuel] iterations. *)
Fixpoint training_loop (fuel : nat) (op : SearcherOp.t) : M unit :=
  s <- get_self;;
  r <- lift (batches_until_op_complete s op);;
  if 0 <? r then
    match fuel with
    | O => out_of_fuel
    | S fuel' =>
        pause_to_validate op;;
        pause_to_checkpoint;;
        do_some_training op;;
        training_loop fuel' op
    end
  else ret tt.

(** What follows the [while] loop: "Done training for this searcher
    operation!" *)
Definition finish_op (op : SearcherOp.t) : M unit :=
  s <- get_self;;
  when (negb (checkpoint_is_current s)) (checkpoint false);;
  s <- get_self;;
  when (negb (validation_is_current s)) (validate (Some op));;
  c <- op_completed op;;
  if c then ret tt
  else raise (AssertionError "logic error; op was never completed").

(** Every iteration of the loop trains at least one batch, so the batches
    that are left bound the number of iterations. *)
Definition loop_fuel (op : SearcherOp.t) (w : World) : nat :=
  match batches_until_op_complete (self w) op with
  | Ok r => Z.to_nat r
  | _ => O
  end.

(** The body of [for op in searcher.ops()]. *)
Definition run_op (op : SearcherOp.t) : M unit :=
  (fun w => training_loop (loop_fuel op w) op w);;
  finish_op op.

Fixpoint for_ops (ops : list SearcherOp.t) : M unit :=
  match ops with
  | [] => ret tt
  | op :: rest => run_op op;; for_ops rest
  end.

(** The operations of the feed as objects, numbered from [first]. *)
Fixpoint searcher_ops (first : nat) (feed : list (SearcherOp.Unit * Z))
  : list SearcherOp.t :=
  match feed with
  | [] => []
  | (u, len) :: rest =>
      {| SearcherOp.op_id := first; SearcherOp.unit := u;
         SearcherOp.length := len |} :: searcher_ops (S first) rest
  end.

Definition initial_validation : M unit :=
  s <- get_self;;
  when (want_initial_val s
        && bool_decide (val_from_previous_run s = None)
        && (latest_batch (state s) =? 0))
       (validate None).

(** "Checkpoint unsaved work and exit." *)
Definition on_should_exit : M unit :=
  s <- get_self;;
  when (negb (checkpoint_is_current s)) (checkpoint true).

(** [__iter__], run to the end of the generator. *)
Definition iter (ops : list SearcherOp.t) : M unit :=
  emit EPreemptionStart;;
  try_finally
    (try_except_ShouldExit (initial_validation;; for_ops ops) on_should_exit)
    (emit EPreemptionClose).

(** The workloads of a trace, in the order they were yielded. *)
Fixpoint yields (tr : list Event) : list Workload.t :=
  match tr with
  | [] => []
  | EYield w :: tr' => w :: yields tr'
  | _ :: tr' => yields tr'
  end.

(** The values of [latest_batch] at which the workloads of a trace were
    yielded. *)
Definition batch_marks (tr : list Event) : list Z :=
  map Workload.total_batches_processed (yields tr).

(** How often [complete] was called on the operation [op] in a trace. *)
Fixpoint completions (op : nat) (tr : list Event) : nat :=
  match tr with
  | [] => O
  | EComplete o _ :: tr' =>
      if Nat.eqb o op then S (completions op tr') else completions op tr'
  | _ :: tr' => completions op tr'
  end.

Definition latest (w : World) : Z := latest_batch (state (self w)).

(** ** The properties of the counters *)

(** Neither the last checkpoint nor the last validation is ahead of the
    training. *)
Definition counters_ok (st : SavableState) : Prop :=
  last_ckpt st <= latest_batch st /\ last_val st <= latest_batch st.

(** A list of batch counts that never goes down. *)
Definition nondecreasing (l : list Z) : Prop :=
  forall (i j : nat) (x y : Z),
    (i <= j)%nat -> l !! i = Some x -> l !! j = Some y -> x <= y.

(** [l] climbs from [lo] to [hi] without ever going down. *)
Fixpoint climbs (lo hi : Z) (l : list Z) : Prop :=
  match l with
  | [] => lo <= hi
  | x :: l' => lo <= x /\ climbs x hi l'
  end.

(** A training workload trains at least one batch. *)
Definition trains_some (wk : Workload.t) : Prop :=
  Workload.kind wk = Workload.RUN_STEP -> 1 <= Workload.num_batches wk.

(** What every piece of the generator does to the world, whatever its
    outcome: it talks to the same collaborators, only appends the events [d]
    to the trace, touches nothing of the sequencer but its counters, never
    takes [latest_batch] down, yields its workloads at values of
    [latest_batch] that never go down, keeps the counters in order, and
    sets [_completed] on exactly the operations it calls [complete] on. *)
Record advances (w w' : World) (d : list Event) : Prop := {
  adv_io : io w' = io w;
  adv_trace : trace w' = trace w ++ d;
  adv_config : self w' = set_state (state (self w')) (self w);
  adv_marks : climbs (latest w) (latest w') (batch_marks d);
  adv_counters : counters_ok (state (self w)) -> counters_ok (state (self w'));
  adv_completed :
    forall o : nat, o ∈ completed w' <-> o ∈ completed w \/ (0 < completions o d)%nat
}.

(** The run from [w] to [w'] only added events to the trace, starting with
    [pre]. *)
Definition starts_with (pre : list Event) (w w' : World) : Prop :=
  exists d, trace w' = trace w ++ pre ++ d.

(** The two events that open a validation and a checkpoint. *)
Definition validation_events (s : Sequencer) : list Event :=
  [ESetStatus "validating";
   EYield (make_workload Workload.COMPUTE_VALIDATION_METRICS s
             (step_id (state s)) 0)].

Definition checkpoint_events (s : Sequencer) : list Event :=
  [ESetStatus "checkpointing";
   EYield (make_workload Workload.CHECKPOINT_MODEL s (step_id (state s)) 0)].

(** The world in which a training step ends when its response says
    [INVALID_HP]: the early exit is reported and nothing else changes. *)
Definition after_invalid_hp (num_batches : Z) (w : World) : World :=
  let wkld := make_workload Workload.RUN_STEP (self w)
                (step_id (state (self w)) + 1) num_batches in
  {| io := io w; self := self w; completed := completed w;
     trace := trace w ++
              [ESetStatus "training"; EYield wkld;
               EResume (executor (io w)
                          (trace w ++ [ESetStatus "training"; EYield wkld]));
               EReportEarlyExit] |}.

(** The response that the consumer gives to the training workload that is
    yielded in [w]. *)
Definition train_response (num_batches : Z) (w : World)
  : Result (option Metrics) :=
  respond_all
    (executor (io w)
       (trace w ++
        [ESetStatus "training";
         EYield (make_workload Workload.RUN_STEP (self w)
                   (step_id (state (self w)) + 1) num_batches)]))
    None.

(** ** Reachable states *)

(** One operation of the sequencer on its counters, run to its end
    whatever its outcome: the training step of the main loop, which is the
    call of [train] with the size that the loop computes, a validation, a
    checkpoint, or a whole run of the generator. *)
Inductive operation_step : World -> World -> Prop :=
| step_train op w : operation_step w (snd (do_some_training op w))
| step_validate oo w : operation_step w (snd (validate oo w))
| step_checkpoint b w : operation_step w (snd (checkpoint b w))
| step_iter ops w : operation_step w (snd (iter ops w)).

(** The worlds that a trial goes through: the one that [__init__] builds;
    the one in which, after a pause or a restart, [load_state] has given
    the newly built sequencer the snapshot that [get_state] took, and that
    was saved with a checkpoint, in a world that an earlier run went
    through; and the ones that the operations lead to. *)
Inductive reachable : World -> Prop :=
| reach_init env s e :
    init env = Ok s ->
    reachable {| io := e; self := s; completed := ∅; trace := [] |}
| reach_load w0 env s e :
    reachable w0 -> init env = Ok s ->
    reachable {| io := e; self := load_state (get_state (self w0)) s;
                 completed := ∅; trace := [] |}
| reach_step w w' : reachable w -> operation_step w w' -> reachable w'.

(** ** The computations that come to an operation

    [processes op w r w'] says that a computation of the generator that
    comes to the body of [for op in searcher.ops()] in the world [w] ends
    with the outcome [r] in the world [w']: the body itself, the loop over
    a feed whose next operation is [op], or a run of the generator whose
    first operation is [op] and whose step-zero check has left [w]. *)
Inductive processes (op : SearcherOp.t) (w : World)
  : Outcome unit -> World -> Prop :=
| processes_body r w' : run_op op w = (r, w') -> processes op w r w'
| processes_feed rest r w' :
    for_ops (op :: rest) w = (r, w') -> processes op w r w'
| processes_run rest w0 r w' :
    initial_validation (snd (emit EPreemptionStart w0)) = (Returns tt, w) ->
    iter (op :: rest) w0 = (r, w') -> processes op w r w'.

(** The same, or the [while] loop of [op] alone with what follows an
    iteration, entered in [w]. *)
Inductive enters (op : SearcherOp.t) (w : World)
  : Outcome unit -> World -> Prop :=
| enters_loop fuel r w' :
    training_loop (S fuel) op w = (r, w') -> enters op w r w'
| enters_body r w' : processes op w r w' -> enters op w r w'.

(** A piece of the main loop [advances], and every training workload it
    yields trains at least one batch. *)
Definition proceeds (w w' : World) (d : list Event) : Prop :=
  advances w w' d /\ Forall trains_some (yields d).

(** The answers of the collaborators, named so that a proof can speak of
    an answer without carrying the history it was computed from. *)
Definition consumer_calls (w : World) (wkld : Workload.t)
    (rs : list Response) : Prop :=
  rs = executor (io w) (trace w ++ [EYield wkld]).

Definition preemption_says (w : World) (b : bool) : Prop :=
  b = should_preempt (io w) (trace w).

Definition master_says_best (w : World) (best : option metric) : Prop :=
  best = get_experiment_best_validation (io w) (trace w).

(** No call of [complete] at all in a stretch of the trace. *)
Definition no_completion (d : list Event) : Prop :=
  forall o : nat, completions o d = O.

(** The events [d] that follow the yield of a validation workload start
    with its response and the one call of [complete] on [op], with the
    metric that the response has under the configured name. *)
Definition completed_by_validation (s : Sequencer) (op : SearcherOp.t)
    (d : list Event) : Prop :=
  exists rs response ms m d',
    d = EResume rs :: EComplete (SearcherOp.op_id op) m :: d' /\
    no_completion d' /\
    respond_all rs None = Ok (Some response) /\
    get_validation_metrics response = Ok ms /\
    ms !! searcher_metric_name s = Some m.

(** In the events [d], [complete] is called on [op] exactly once, right
    after the response to a validation workload and with the metric of that
    response, and on no other operation. *)
Definition completed_once (s : Sequencer) (op : SearcherOp.t)
    (d : list Event) : Prop :=
  exists d1 wk d2,
    d = d1 ++ EYield wk :: d2 /\
    no_completion d1 /\
    Workload.kind wk = Workload.COMPUTE_VALIDATION_METRICS /\
    completed_by_validation s op d2.

(** The events [d] are one stretch per operation of [ops], in the order of
    the feed, and in the stretch of an operation [complete] is called
    exactly once, on that operation. *)
Fixpoint completed_in_turn (s : Sequencer) (ops : list SearcherOp.t)
    (d : list Event) : Prop :=
  match ops with
  | [] => d = []
  | op :: rest =>
      exists d1 d2,
        d = d1 ++ d2 /\ completed_once s op d1 /\ completed_in_turn s rest d2
  end.

(** ** More properties of a run *)

(** How the persisted counters may evolve: the trial stays the same, the
    step counter and the batch counter never go down, every step trained at
    least one batch, and an unknown number of records stays unknown. *)
Definition state_evolves (st st' : SavableState) : Prop :=
  trial_id st' = trial_id st /\
  step_id st <= step_id st' /\
  step_id st' - step_id st <= latest_batch st' - latest_batch st /\
  (total_records st = None -> total_records st' = None).

(** The run from [w] to [w'] kept the configuration of the sequencer and let
    its counters evolve. *)
Definition evolves (w w' : World) : Prop :=
  self w' = set_state (state (self w')) (self w) /\
  state_evolves (state (self w)) (state (self w')).

(** The body of the [while] loop: the two checks and the training step. *)
Definition iteration (op : SearcherOp.t) : M unit :=
  pause_to_validate op;;
  pause_to_checkpoint;;
  do_some_training op.

(** No more batches were trained since the last validation than the
    validation period allows, nor since the last checkpoint than the
    checkpoint period allows; both periods are at least one batch. *)
Definition keeps_pace (s : Sequencer) : Prop :=
  1 <= min_val_period_batches s /\
  1 <= min_ckpt_period_batches s /\
  latest_batch (state s) - last_val (state s) <= min_val_period_batches s /\
  latest_batch (state s) - last_ckpt (state s) <= min_ckpt_period_batches s.

(** The response that the consumer gives to the checkpoint workload that is
    yielded in [w]. *)
Definition checkpoint_response (w : World) : Result (option Metrics) :=
  respond_all
    (executor (io w)
       (trace w ++
        [ESetStatus "checkpointing";
         EYield (make_workload Workload.CHECKPOINT_MODEL (self w)
                   (step_id (state (self w))) 0)]))
    None.

(** The batches that the training workloads among [wks] ask for. *)
Fixpoint batches_of (wks : list Workload.t) : Z :=
  match wks with
  | [] => 0
  | wk :: wks' =>
      match Workload.kind wk with
      | Workload.RUN_STEP => Workload.num_batches wk + batches_of wks'
      | _ => batches_of wks'
      end
  end.

(** The run from [w] to [w'] did not advance [latest_batch] by more than the
    batches of the training workloads it yielded, and by exactly these when
    [full] is set. *)
Definition counted (full : bool) (w w' : World) : Prop :=
  exists d,
    trace w' = trace w ++ d /\
    0 <= latest w' - latest w <= batches_of (yields d) /\
    (full = true -> latest w' - latest w = batches_of (yields d)).

(** ** [make_compatibility_workloads]

    What a rank does on the distributed context and with its consumer, in
    order.  On the chief, [Broadcast (Some wkld)] distributes a workload to
    the peers and [Broadcast None] breaks the workers out of their loop; on
    a worker, [Broadcast o] is a call of [dist._zmq_broadcast(None)] that
    returned [o].  [Process wkld] is the [yield] of the workload, and
    [Gather] the call of [dist._zmq_gather(None)]. *)
Inductive Traffic : Type :=
| Broadcast (o : option Workload.t)
| Process (wkld : Workload.t)
| Gather.

(** The sequencer is built on the chief alone. *)
Definition make_compatibility_workloads (rank : Z) (env : EnvContext)
  : Result (option Sequencer) :=
  if rank =? 0 then
    match init env with
    | Ok wlsq => Ok (Some wlsq)
    | Raise e => Raise e
    end
  else Ok None.

(** [for wkld, response_fn in wlsq], over the workloads that the sequencer
    yields. *)
Fixpoint chief_loop (wklds : list Workload.t) : list Traffic :=
  match wklds with
  | [] => []
  | wkld :: rest =>
      Broadcast (Some wkld) :: Process wkld :: Gather :: chief_loop rest
  end.

(** The chief, for a sequencer that yields [wklds] and ends with [r]: an
    exception of the sequencer leaves the loop and the function, so that
    the last broadcast is only made when the sequencer returns. *)
Definition chief_workloads (r : Outcome unit) (wklds : list Workload.t)
  : list Traffic * Outcome unit :=
  (chief_loop wklds ++
   match r with
   | Returns _ => [Broadcast None]
   | _ => []
   end,
   r).

(** The [while True] loop of a worker, whose calls of
    [dist._zmq_broadcast(None)] return the values of [inbox] in turn.  A
    worker that has used up its inbox is still in its loop, waiting for
    the next broadcast: its outcome is [OutOfFuel]. *)
Fixpoint worker_workloads (inbox : list (option Workload.t))
  : list Traffic * Outcome unit :=
  match inbox with
  | [] => ([], OutOfFuel)
  | None :: _ => ([Broadcast None], Returns tt)
  | Some wkld :: rest =>
      let (t, r) := worker_workloads rest in
      (Broadcast (Some wkld) :: Process wkld :: Gather :: t, r)
  end.

(** The world in which the generator of a new sequencer is started. *)
Definition start (env : Environment) (s : Sequencer) : World :=
  {| io := env; self := s; completed := ∅; trace := [] |}.

(** [workloads()]: the chief runs the generator of its sequencer on the
    operations [ops]; a worker has no sequencer. *)
Definition workloads (wlsq : option Sequencer) (env : Environment)
    (ops : list SearcherOp.t) (inbox : list (option Workload.t))
  : list Traffic * Outcome unit :=
  match wlsq with
  | Some s =>
      let (r, w') := iter ops (start env s) in
      chief_workloads r (yields (trace w'))
  | None => worker_workloads inbox
  end.

(** What a rank broadcast or was sent, the workloads it processed, and the
    number of times it gathered. *)
Fixpoint broadcasts (t : list Traffic) : list (option Workload.t) :=
  match t with
  | [] => []
  | Broadcast o :: t' => o :: broadcasts t'
  | _ :: t' => broadcasts t'
  end.

Fixpoint processed (t : list Traffic) : list Workload.t :=
  match t with
  | [] => []
  | Process wkld :: t' => wkld :: processed t'
  | _ :: t' => processed t'
  end.

Fixpoint gathers (t : list Traffic) : nat :=
  match t with
  | [] => O
  | Gather :: t' => S (gathers t')
  | _ :: t' => gathers t'
  end.

End Sequencing.

(** ** A concrete trial

    A trial of experiment 7 whose metrics are integers, whose consumer
    answers every workload once, and which is never preempted. *)

Module Example.

Definition storage : StorageMetadata :=
  {| storage_id := "c1a55e"; framework := "keras"; format := "h5" |}.

Definition validation_metrics : gmap string Z := {[ "loss"%string := 3 ]}.

(** The response to a workload; [reason] is the exit reason that the
    responses to training workloads carry. *)
Definition response_to (reason : option string) (wk : Workload.t)
  : @Metrics Z :=
  match Workload.kind wk with
  | Workload.RUN_STEP =>
      {| exited_reason := reason; metrics := Some (PDict (Some 64) None) |}
  | Workload.COMPUTE_VALIDATION_METRICS =>
      {| exited_reason := None;
         metrics := Some (PDict None (Some validation_metrics)) |}
  | Workload.CHECKPOINT_MODEL =>
      {| exited_reason := None; metrics := Some (PStorage storage) |}
  end.

Definition answer_once (reason : option string) (tr : list (@Event Z))
  : list Response :=
  match last tr with
  | Some (EYield wk) => [RMetrics (response_to reason wk)]
  | _ => []
  end.

(** A consumer that calls the response function twice, first with the
    response of an aborted step and then with the response of a normal
    one. *)
Definition answer_twice (tr : list (@Event Z)) : list Response :=
  match last tr with
  | Some (EYield wk) =>
      [RMetrics (response_to (Some INVALID_HP) wk);
       RMetrics (response_to None wk)]
  | _ => []
  end.

Definition collaborators (calls : list (@Event Z) -> list Response)
  : Environment :=
  {| executor := calls;
     should_preempt := fun _ => false;
     get_experiment_best_validation := fun _ => None;
     float_lt := Z.ltb |}.

Definition batches (n : Z) : LengthSpec :=
  {| spec_batches := Some n; spec_records := None; spec_epochs := None |}.

(** The configuration, with the two minimum periods in batches. *)
Definition env (val_period ckpt_period : Z) : EnvContext :=
  {| det_trial_id := 1;
     det_experiment_id := 7;
     last_validation := None;
     perform_initial_validation := false;
     checkpoint_policy := "best";
     env_records_per_epoch := Some 100;
     env_global_batch_size := 10;
     min_validation_period := batches val_period;
     min_checkpoint_period := batches ckpt_period;
     env_scheduling_unit := 10;
     searcher_metric := "loss";
     searcher_smaller_is_better := true |}.

(** The sequencer that [__init__] builds for [env v c] when both periods
    are at least 1. *)
Definition sequencer (val_period ckpt_period : Z) : Sequencer :=
  {| _trial_id := 1;
     _exp_id := 7;
     val_from_previous_run := None;
     want_initial_val := false;
     ckpt_policy := "best";
     state := fresh_state 1;
     records_per_epoch := Some 100;
     global_batch_size := 10;
     min_val_period_batches := val_period;
     min_ckpt_period_batches := ckpt_period;
     scheduling_unit := 10;
     searcher_metric_name := "loss";
     smaller_is_better := true |}.

Definition world (calls : list (@Event Z) -> list Response)
    (s : Sequencer) : @World Z :=
  {| io := collaborators calls; self := s; completed := ∅; trace := [] |}.

(** The first operation of the feed: train 10 batches. *)
Definition op : SearcherOp.t :=
  {| SearcherOp.op_id := 0; SearcherOp.unit := SearcherOp.BATCHES;
     SearcherOp.length := 10 |}.

(** A fresh trial with both periods switched off. *)
Definition fresh : @World Z :=
  world (answer_once None) (sequencer sys_maxsize sys_maxsize).

(** A fresh trial that validates every 5 batches and checkpoints every
    5 batches. *)
Definition paced : @World Z := world (answer_once None) (sequencer 5 5).

(** The state of [paced] after 5 batches without validation or
    checkpoint. *)
Definition five_batches : SavableState :=
  {| trial_id := 1; last_ckpt := 0; latest_batch := 5;
     total_records := Some 320; step_id := 1; last_val := 0 |}.

Definition paced_at_five : @World Z :=
  world (answer_once None) (set_state five_batches (sequencer 5 5)).

(** The same state in a trial that only checkpoints when a checkpoint is
    due: its checkpoint policy is "none". *)
Definition plain_at_five : @World Z :=
  world (answer_once None)
    {| _trial_id := 1;
       _exp_id := 7;
       val_from_previous_run := None;
       want_initial_val := false;
       ckpt_policy := "none";
       state := five_batches;
       records_per_epoch := Some 100;
       global_batch_size := 10;
       min_val_period_batches := 5;
       min_ckpt_period_batches := 5;
       scheduling_unit := 10;
       searcher_metric_name := "loss";
       smaller_is_better := true |}.

(** A sequencer whose global batch size is 4. *)
Definition quartets : Sequencer :=
  {| _trial_id := 1;
     _exp_id := 7;
     val_from_previous_run := None;
     want_initial_val := false;
     ckpt_policy := "best";
     state := fresh_state 1;
     records_per_epoch := None;
     global_batch_size := 4;
     min_val_period_batches := sys_maxsize;
     min_ckpt_period_batches := sys_maxsize;
     scheduling_unit := 10;
     searcher_metric_name := "loss";
     smaller_is_better := true |}.

(** A trial whose training steps are answered with [INVALID_HP]. *)
Definition rejected : @World Z :=
  world (answer_once (Some INVALID_HP)) (sequencer sys_maxsize sys_maxsize).

(** A trial that is rejected in the same way after 5 batches that were
    neither validated nor checkpointed, at the point where its generator
    has just been started. *)
Definition rejected_at_five : @World Z :=
  world (answer_once (Some INVALID_HP))
    (set_state five_batches (sequencer sys_maxsize sys_maxsize)).

Definition started_at_five : @World Z :=
  snd (emit EPreemptionStart rejected_at_five).

(** A trial whose consumer answers twice. *)
Definition answered_twice : @World Z :=
  world answer_twice (sequencer sys_maxsize sys_maxsize).

(** A state in which [sys.maxsize] batches were trained, and neither a
    validation nor a checkpoint was done. *)
Definition far_state : SavableState :=
  {| trial_id := 1; last_ckpt := 0; latest_batch := sys_maxsize;
     total_records := None; step_id := 1; last_val := 0 |}.

Definition far_snapshot : Snapshot := vars far_state.

(** A fresh trial that validates every 5 batches and lets 100 batches go
    by between two checkpoints, and the same trial after 5 batches without
    validation or checkpoint. *)
Definition seldom_saved : @World Z := world (answer_once None) (sequencer 5 100).

Definition seldom_saved_at_five : @World Z :=
  world (answer_once None) (set_state five_batches (sequencer 5 100)).

(** The kind of a workload with the batches processed before it. *)
Definition kind_at (wk : Workload.t) : Workload.Kind * Z :=
  (Workload.kind wk, Workload.total_batches_processed wk).

(** A second operation that asks for the same 10 batches. *)
Definition op_again : SearcherOp.t :=
  {| SearcherOp.op_id := 1; SearcherOp.unit := SearcherOp.BATCHES;
     SearcherOp.length := 10 |}.

(** A trial whose training steps are answered with [USER_CANCELED]. *)
Definition canceled : @World Z :=
  world (answer_once (Some USER_CANCELED)) (sequencer sys_maxsize sys_maxsize).

(** A snapshot that holds the trial id alone. *)
Definition bare_snapshot : Snapshot :=
  {| snap_trial_id := Some 1; snap_last_ckpt := None;
     snap_latest_batch := None; snap_total_records := None;
     snap_step_id := None; snap_last_val := None |}.

End Example.

(** ** Running the monad: inversion of a run *)

Section Proofs.

Context {metric : Type}.

Lemma bind_run {W A B} (m : Gen W A) (k : A -> Gen W B) w r w' :
  bind m k w = (r, w') ->
  (exists a w1, m w = (Returns a, w1) /\ k a w1 = (r, w')) \/
  (exists e, m w = (Raises e, w') /\ r = Raises e) \/
  (m w = (OutOfFuel, w') /\ r = OutOfFuel).
Proof.
  unfold bind. destruct (m w) as [[a|e|] w1]; intros H.
  - left. eauto.
  - right. left. exists e. by simplify_eq.
  - right. right. by simplify_eq.
Qed.

Implicit Types (w : @World metric) (op : SearcherOp.t) (s : Sequencer).
Implicit Types (d : list (@Event metric)).

(** One step of inversion of a run [m w = (r, w')], on the shape of [m]. *)
Ltac run_prim H := symmetry in H; simplify_eq.

Ltac run_inv1 :=
  match goal with
  | H : bind _ _ _ = (_, _) |- _ =>
      apply bind_run in H;
      destruct H as [(? & ? & ? & H) | [(? & H & ?) | (H & ?)]];
      simplify_eq
  | H : emit _ _ = (_, _) |- _ => unfold emit in H; run_prim H
  | H : modify_state _ _ = (_, _) |- _ => unfold modify_state in H; run_prim H
  | H : ret _ _ = (_, _) |- _ => unfold ret in H; run_prim H
  | H : raise _ _ = (_, _) |- _ => unfold raise in H; run_prim H
  | H : lift ?x _ = (_, _) |- _ =>
      unfold lift in H; destruct x eqn:?; run_prim H
  | H : out_of_fuel _ = (_, _) |- _ => unfold out_of_fuel in H; run_prim H
  | H : get_self _ = (_, _) |- _ => unfold get_self in H; run_prim H
  | H : get_io _ = (_, _) |- _ => unfold get_io in H; run_prim H
  | H : op_complete _ _ _ = (_, _) |- _ => unfold op_complete in H
  | H : op_completed _ _ = (_, _) |- _ => unfold op_completed in H; run_prim H
  | H : read_local _ _ = (_, _) |- _ => unfold read_local in H
  | H : (_, _) = (_, _) |- _ => run_prim H
  | H : when _ _ _ = (_, _) |- _ => unfold when in H
  | H : (if ?b then _ else _) _ = (_, _) |- _ => destruct b eqn:?
  | H : (match ?x with _ => _ end) _ = (_, _) |- _ => destruct x eqn:?
  end.

(** Beta reduction and the projections of explicit worlds. *)
Ltac run_red := cbn [io self completed trace state] in *.

Ltac run_inv := run_red; repeat (run_inv1; run_red).

Lemma yield_to_consumer_run wkld w r w' :
  yield_to_consumer wkld w = (r, w') ->
  exists rs,
    consumer_calls w wkld rs /\ r = Returns rs /\
    w' = {| io := io w; self := self w; completed := completed w;
            trace := trace w ++ [EYield wkld; EResume rs] |}.
Proof. unfold yield_to_consumer. intros H. eexists. by simplify_eq. Qed.

Lemma poll_should_preempt_run w r w' :
  poll_should_preempt w = (r, w') ->
  exists b,
    preemption_says w b /\ r = Returns b /\
    w' = {| io := io w; self := self w; completed := completed w;
            trace := trace w ++ [EShouldPreempt b] |}.
Proof. unfold poll_should_preempt. intros H. eexists. by simplify_eq. Qed.

Lemma ask_experiment_best_validation_run w r w' :
  ask_experiment_best_validation w = (r, w') ->
  exists best,
    master_says_best w best /\ r = Returns best /\
    w' = {| io := io w; self := self w; completed := completed w;
            trace := trace w ++ [EGetBestValidation best] |}.
Proof.
  unfold ask_experiment_best_validation. intros H. eexists. by simplify_eq.
Qed.

(** Inversion that also goes through the calls of the collaborators, whose
    answers it keeps as variables. *)
Ltac run_inv2 :=
  match goal with
  | H : yield_to_consumer _ _ = (_, _) |- _ =>
      apply yield_to_consumer_run in H; destruct H as (? & ? & ? & ?);
      simplify_eq
  | H : poll_should_preempt _ = (_, _) |- _ =>
      apply poll_should_preempt_run in H; destruct H as (? & ? & ? & ?);
      simplify_eq
  | H : ask_experiment_best_validation _ = (_, _) |- _ =>
      apply ask_experiment_best_validation_run in H;
      destruct H as (? & ? & ? & ?); simplify_eq
  | H : yield_and_await_response _ _ = (_, _) |- _ =>
      unfold yield_and_await_response in H
  | H : check_for_preemption _ = (_, _) |- _ =>
      unfold check_for_preemption in H
  | _ => run_inv1
  end.

Ltac run_inv' := run_red; repeat (run_inv2; run_red).

(** ** Traces *)

Lemma yields_app (a b : list (@Event metric)) :
  yields (a ++ b) = yields a ++ yields b.
Proof.
  induction a as [|e a IH]; simpl; [done|].
  destruct e; simpl; by rewrite ?IH.
Qed.

Lemma batch_marks_app (a b : list (@Event metric)) :
  batch_marks (a ++ b) = batch_marks a ++ batch_marks b.
Proof. unfold batch_marks. by rewrite yields_app, map_app. Qed.

Lemma completions_app o (a b : list (@Event metric)) :
  completions o (a ++ b) = (completions o a + completions o b)%nat.
Proof.
  induction a as [|e a IH]; simpl; [done|].
  destruct e; simpl; try done. destruct (Nat.eqb _ _); simpl; lia.
Qed.

Lemma no_completion_app (a b : list (@Event metric)) :
  no_completion a -> no_completion b -> no_completion (a ++ b).
Proof. intros Ha Hb o. rewrite completions_app, Ha, Hb. done. Qed.

Lemma climbs_le lo hi l : climbs lo hi l -> lo <= hi.
Proof.
  revert lo. induction l as [|x l IH]; simpl; intros lo; [done|].
  intros [? H]. apply IH in H. lia.
Qed.

Lemma climbs_app lo mid hi l1 l2 :
  climbs lo mid l1 -> climbs mid hi l2 -> climbs lo hi (l1 ++ l2).
Proof.
  revert lo. induction l1 as [|x l1 IH]; simpl; intros lo H1 H2.
  - destruct l2 as [|y l2]; simpl in *; [lia|]. destruct H2. split; [lia|done].
  - destruct H1. split; [done|]. by apply IH.
Qed.

Lemma climbs_bounds lo hi l (i : nat) x :
  climbs lo hi l -> l !! i = Some x -> lo <= x <= hi.
Proof.
  revert lo i. induction l as [|y l IH]; intros lo i Hc Hi; [done|].
  destruct Hc as [Hlo Hc]. destruct i as [|i]; simpl in Hi.
  - simplify_eq. apply climbs_le in Hc. lia.
  - specialize (IH _ _ Hc Hi). lia.
Qed.

Lemma climbs_nondecreasing lo hi l : climbs lo hi l -> nondecreasing l.
Proof.
  revert lo. induction l as [|y l IH]; intros lo Hc i j a b Hij Hi Hj; [done|].
  destruct Hc as [Hlo Hc].
  destruct i as [|i], j as [|j]; simpl in *; simplify_eq; try lia.
  - pose proof (climbs_bounds _ _ _ _ _ Hc Hj). lia.
  - eapply (IH _ Hc i j); eauto. lia.
Qed.

(** ** Composition of the pieces of a run *)

Lemma advances_refl w : advances w w [].
Proof.
  split; simpl; try done.
  - by rewrite app_nil_r.
  - by destruct (self w).
  - intros o. split; [auto|]. intros [?|?]; [done|lia].
Qed.

Lemma advances_trans w w1 w2 d1 d2 :
  advances w w1 d1 -> advances w1 w2 d2 -> advances w w2 (d1 ++ d2).
Proof.
  intros [Hio1 Htr1 Hc1 Hm1 Hk1 Hd1] [Hio2 Htr2 Hc2 Hm2 Hk2 Hd2]. split.
  - congruence.
  - by rewrite Htr2, Htr1, app_assoc.
  - rewrite Hc2 at 1. rewrite Hc1. done.
  - rewrite batch_marks_app. eapply climbs_app; eauto.
  - auto.
  - intros o. rewrite Hd2, Hd1, completions_app. split.
    + intros [[?|?]|?]; auto; right; lia.
    + intros [?|?]; auto.
      destruct (completions o d1); [right; lia|left; right; lia].
Qed.

Lemma set_state_id s : set_state (state s) s = s.
Proof. by destruct s. Qed.

(** Closes the side conditions of [advances] between two explicit worlds. *)
Ltac adv_completed :=
  let o := fresh "o" in
  intros o; cbn [completions];
  rewrite ?elem_of_union, ?elem_of_singleton;
  repeat match goal with
         | |- context [Nat.eqb ?a ?b] => destruct (Nat.eqb_spec a b)
         end;
  cbn [completions];
  intuition (subst; first [lia | congruence | auto]).

Ltac adv_side :=
  unfold latest, counters_ok; cbn [io self completed trace state];
  first [ progress simpl; lia | lia | adv_completed ].

Ltac adv_tac :=
  split;
  [ reflexivity
  | cbn [trace]; rewrite <- ?app_assoc; simpl; reflexivity
  | cbn [self state]; rewrite ?set_state_id; reflexivity
  | adv_side | adv_side | adv_side ].

Lemma advances_then w w1 w' d1 d2 d :
  advances w w1 d1 -> advances w1 w' d2 -> d = d1 ++ d2 -> advances w w' d.
Proof. intros H1 H2 ->. by eapply advances_trans. Qed.

(** [advances] from the start of a method to its end, through the calls of
    other methods whose own summaries are among the hypotheses. *)
Ltac adv_chain :=
  first
    [ solve [apply advances_refl]
    | solve [adv_tac]
    | match goal with
      | H : advances ?wi ?wk ?dk |- advances ?w ?w' _ =>
          eapply (advances_then w wk w');
          [ eapply (advances_then w wi wk); [adv_chain | exact H | reflexivity]
          | first [solve [apply advances_refl] | solve [adv_tac]]
          | simpl; rewrite <- ?app_assoc; simpl; reflexivity ]
      end ].

Lemma get_searcher_metric_ok s (ms : gmap string metric) m :
  get_searcher_metric s ms = Ok m -> ms !! searcher_metric_name s = Some m.
Proof. unfold get_searcher_metric. destruct (ms !! _); by intros; simplify_eq. Qed.

(** Closes the facts about the events and the counters at the end of a
    method, using what is known of the calls of [checkpoint] inside it. *)
Ltac fin_no_completion :=
  let o := fresh "o" in
  intros o; simpl; rewrite ?completions_app; simpl;
  repeat match goal with H : forall o : nat, completions o _ = O |- _ =>
           rewrite (H o) end;
  done.

Ltac fin_completed_by_validation :=
  unfold completed_by_validation;
  eexists _, _, _, _, _;
  split; [reflexivity|];
  split; [unfold no_completion; fin_no_completion|];
  split; [eassumption|];
  split; [eassumption|];
  by apply get_searcher_metric_ok.

Ltac fin_disj :=
  match goal with
  | |- (_ = _) \/ (_ = _) =>
      rewrite ?yields_app; unfold make_workload; simpl;
      repeat match goal with H : yields _ = [] |- _ => rewrite H end;
      first [left; reflexivity | right; reflexivity]
  | |- (forall _ : nat, _) \/ _ =>
      first
        [ left; fin_no_completion
        | right; eexists _, _;
          split; [reflexivity|];
          split; [eassumption|];
          split; [by apply Z.ltb_lt|];
          fin_completed_by_validation ]
  | |- forall op rem, Some _ = Some op -> _ =>
      let H := fresh in
      intros ? ? H ? ? ?; simplify_eq;
      repeat match goal with
             | H1 : ?f = Ok _, H2 : ?f = Ok _ |- _ =>
                 rewrite H1 in H2; simplify_eq
             end;
      first
        [ exfalso;
          match goal with
          | H : (_ <? _) = false |- _ => apply Z.ltb_ge in H; lia
          end
        | fin_completed_by_validation ]
  end.

Ltac fin_facts :=
  unfold latest, validation_is_current, no_completion in *;
  cbn [io self completed trace state] in *;
  repeat match goal with
         | H : state (self _) = _ |- _ => rewrite H; clear H
         end;
  simpl;
  repeat match goal with
         | |- _ /\ _ => split
         | |- _ <> OutOfFuel => done
         | |- _ = Returns tt -> _ => intros ?; simplify_eq
         | |- (_ =? _) = true => apply Z.eqb_refl
         | |- forall o : nat, completions o _ = O => fin_no_completion
         end;
  try done.

Lemma checkpoint_run b w r w' :
  checkpoint b w = (r, w') ->
  exists d,
    advances w w'
      (ESetStatus "checkpointing"
       :: EYield (make_workload Workload.CHECKPOINT_MODEL (self w)
                    (step_id (state (self w))) 0) :: d) /\
    yields d = [] /\ no_completion d /\ r <> OutOfFuel /\
    state (self w') = with_last_ckpt (latest w) (state (self w)).
Proof.
  unfold checkpoint. intros H. run_inv'.
  all: eexists; split; [adv_chain|].
  all: unfold latest; repeat split; done.
Qed.

Lemma train_run n op w r w' :
  train n op w = (r, w') -> 0 <= n ->
  exists d,
    advances w w'
      (ESetStatus "training"
       :: EYield (make_workload Workload.RUN_STEP (self w)
                    (step_id (state (self w)) + 1) n) :: d) /\
    yields d = [] /\ no_completion d /\ r <> OutOfFuel /\
    last_ckpt (state (self w')) = last_ckpt (state (self w)) /\
    last_val (state (self w')) = last_val (state (self w)) /\
    (r = Returns tt -> latest w' = latest w + n).
Proof.
  unfold train. intros H Hn. run_inv'.
  all: eexists; split; [adv_chain|].
  all: unfold latest; repeat split; done.
Qed.

Lemma validate_run oo w r w' :
  validate oo w = (r, w') ->
  exists d,
    advances w w'
      (ESetStatus "validating"
       :: EYield (make_workload Workload.COMPUTE_VALIDATION_METRICS (self w)
                    (step_id (state (self w))) 0) :: d) /\
    r <> OutOfFuel /\
    latest w' = latest w /\
    (yields d = [] \/
     yields d = [make_workload Workload.CHECKPOINT_MODEL (self w)
                   (step_id (state (self w))) 0]) /\
    (r = Returns tt -> validation_is_current (self w') = true) /\
    (no_completion d \/
     exists op rem, oo = Some op /\
       batches_until_op_complete (self w) op = Ok rem /\ rem < 1 /\
       completed_by_validation (self w) op d) /\
    (forall op rem, oo = Some op ->
       batches_until_op_complete (self w) op = Ok rem -> rem < 1 ->
       r = Returns tt -> completed_by_validation (self w) op d).
Proof.
  unfold validate. intros H. run_inv'.
  all: repeat match goal with
       | H : checkpoint _ _ = (_, _) |- _ =>
           apply checkpoint_run in H; destruct H as (? & ? & ? & ? & ? & ?)
       end.
  all: eexists; split; [adv_chain|].
  all: fin_facts.
  all: fin_disj.
Qed.

(** ** The pieces of the main loop *)

Lemma proceeds_refl w : proceeds w w [].
Proof. split; [apply advances_refl | constructor]. Qed.

Lemma proceeds_trans w w1 w2 d1 d2 :
  proceeds w w1 d1 -> proceeds w1 w2 d2 -> proceeds w w2 (d1 ++ d2).
Proof.
  intros [H1 F1] [H2 F2]. split; [by eapply advances_trans|].
  rewrite yields_app. by apply Forall_app.
Qed.

Lemma trains_some_other k s sid n :
  k <> Workload.RUN_STEP -> trains_some (make_workload k s sid n).
Proof. intros Hk Hrun. done. Qed.

Lemma advances_latest w w' d : advances w w' d -> latest w <= latest w'.
Proof. intros H. eapply climbs_le, adv_marks, H. Qed.

(** The target of an operation only depends on what [__init__] computed. *)
Lemma op_target_set_state st s op :
  op_target (set_state st s) op = op_target s op.
Proof. done. Qed.

Lemma advances_op_target w w' d op :
  advances w w' d -> op_target (self w') op = op_target (self w) op.
Proof. intros H. rewrite (adv_config _ _ _ H). apply op_target_set_state. Qed.

Lemma batches_until_op_complete_target s op rem :
  batches_until_op_complete s op = Ok rem <->
  exists t, op_target s op = Ok t /\ rem = t - latest_batch (state s).
Proof.
  unfold batches_until_op_complete. destruct (op_target s op) as [t|e].
  - split; [intros; simplify_eq; eauto | intros (? & ? & ->); by simplify_eq].
  - split; [done | by intros (? & ? & ?)].
Qed.

Lemma validate_proceeds oo w r w' :
  validate oo w = (r, w') ->
  exists d, proceeds w w' d /\ r <> OutOfFuel /\ latest w' = latest w.
Proof.
  intros H. apply validate_run in H as (d & Hadv & Hr & Hl & Hy & _).
  eexists. split; [split; [exact Hadv|]|done].
  simpl. constructor; [by apply trains_some_other|].
  destruct Hy as [-> | ->]; repeat constructor. by apply trains_some_other.
Qed.

Lemma checkpoint_proceeds b w r w' :
  checkpoint b w = (r, w') ->
  exists d, proceeds w w' d /\ no_completion d /\ r <> OutOfFuel /\
            latest w' = latest w.
Proof.
  intros H. apply checkpoint_run in H as (d & Hadv & Hy & Hn & Hr & Hst).
  eexists. split; [split; [exact Hadv|]|].
  - simpl. rewrite Hy. constructor; [by apply trains_some_other|constructor].
  - split; [|split; [done|]].
    + intros o. simpl. apply Hn.
    + unfold latest. by rewrite Hst.
Qed.

Lemma train_proceeds n op w r w' :
  train n op w = (r, w') -> 1 <= n ->
  exists d, proceeds w w' d /\ no_completion d /\ r <> OutOfFuel /\
            (r = Returns tt -> latest w' = latest w + n).
Proof.
  intros H Hn. apply train_run in H as (d & Hadv & Hy & Hc & Hr & _ & _ & Hl);
    [|lia].
  eexists. split; [split; [exact Hadv|]|].
  - simpl. rewrite Hy. repeat constructor. intros _. done.
  - split; [|done]. intros o. simpl. apply Hc.
Qed.

Lemma pause_to_validate_run op w r w' rem :
  pause_to_validate op w = (r, w') ->
  batches_until_op_complete (self w) op = Ok rem -> 0 < rem ->
  exists d, proceeds w w' d /\ no_completion d /\ r <> OutOfFuel /\
            latest w' = latest w.
Proof.
  unfold pause_to_validate. intros H Hrem Hpos. run_inv.
  - pose proof H as Hp. apply validate_proceeds in Hp as (d & Hp & Hr & Hl).
    apply validate_run in H as (d' & Hadv & _ & _ & _ & _ & Hc & _).
    assert (d = ESetStatus "validating"
                :: EYield (make_workload Workload.COMPUTE_VALIDATION_METRICS
                             (self w) (step_id (state (self w))) 0) :: d')
      as ->.
    { destruct Hp as [Hp _]. apply adv_trace in Hp, Hadv.
      rewrite Hp in Hadv. by apply app_inv_head in Hadv. }
    exists (ESetStatus "validating"
              :: EYield (make_workload Workload.COMPUTE_VALIDATION_METRICS
                           (self w) (step_id (state (self w))) 0) :: d').
    split; [done|]. split; [|done].
    destruct Hc as [Hc | (op' & rem' & ? & Hrem' & ? & _)].
    + intros o. simpl. apply Hc.
    + simplify_eq. rewrite Hrem in Hrem'. simplify_eq. lia.
  - exists []. split; [apply proceeds_refl|]. by split.
Qed.

Lemma pause_to_checkpoint_run w r w' :
  pause_to_checkpoint w = (r, w') ->
  exists d, proceeds w w' d /\ no_completion d /\ r <> OutOfFuel /\
            latest w' = latest w.
Proof.
  unfold pause_to_checkpoint. intros H. run_inv.
  - by apply checkpoint_proceeds in H.
  - exists []. split; [apply proceeds_refl|]. by split.
Qed.

Lemma next_num_batches_pos s op n : next_num_batches s op = Ok n -> 1 <= n.
Proof.
  unfold next_num_batches. destruct (batches_until_op_complete s op); [|done].
  intros ?; simplify_eq. lia.
Qed.

Lemma do_some_training_run op w r w' :
  do_some_training op w = (r, w') ->
  exists d, proceeds w w' d /\ no_completion d /\ r <> OutOfFuel /\
            (r = Returns tt -> latest w + 1 <= latest w').
Proof.
  unfold do_some_training. intros H. run_inv.
  - match goal with Hn : next_num_batches _ _ = Ok ?n |- _ =>
      apply next_num_batches_pos in Hn;
      apply train_proceeds in H as (d & Hp & Hc & Hr & Hl); [|done]
    end.
    exists d. split; [done|]. split; [done|]. split; [done|].
    intros Hok. specialize (Hl Hok). lia.
  - exists []. split; [apply proceeds_refl|]. by split.
Qed.

(** ** The [while] loop *)

Lemma training_loop_unfold fuel op :
  @training_loop metric fuel op =
  (s <- get_self;;
   r <- lift (batches_until_op_complete s op);;
   if 0 <? r then
     match fuel with
     | O => out_of_fuel
     | S fuel' =>
         pause_to_validate op;;
         pause_to_checkpoint;;
         do_some_training op;;
         training_loop fuel' op
     end : M unit
   else ret tt)%gen.
Proof. by destruct fuel. Qed.

Lemma batches_until_op_complete_advances w w' d op rem :
  advances w w' d ->
  batches_until_op_complete (self w) op = Ok rem ->
  batches_until_op_complete (self w') op = Ok (rem - (latest w' - latest w)).
Proof.
  intros Hadv (t & Ht & ->)%batches_until_op_complete_target.
  apply batches_until_op_complete_target. exists t.
  rewrite (advances_op_target _ _ _ _ Hadv). split; [done|].
  unfold latest. lia.
Qed.

Lemma loop_fuel_spec op w rem :
  batches_until_op_complete (self w) op = Ok rem -> loop_fuel op w = Z.to_nat rem.
Proof. unfold loop_fuel. by intros ->. Qed.

Lemma no_completion_nil : no_completion (@nil (@Event metric)).
Proof. intros o. done. Qed.

(** Composes the pieces of the loop that are among the hypotheses. *)
Ltac proceeds_chain :=
  first
    [ eassumption
    | apply proceeds_refl
    | eapply proceeds_trans; [eassumption | proceeds_chain] ].

Ltac no_completion_chain :=
  first
    [ assumption
    | apply no_completion_nil
    | apply no_completion_app; [assumption | no_completion_chain] ].

Lemma training_loop_run fuel op w r w' :
  training_loop fuel op w = (r, w') ->
  exists d,
    proceeds w w' d /\ no_completion d /\
    (r = Returns tt ->
     exists rem, batches_until_op_complete (self w') op = Ok rem /\ rem <= 0) /\
    ((loop_fuel op w <= fuel)%nat -> r <> OutOfFuel).
Proof.
  revert w r w'.
  induction fuel as [|fuel IH]; intros w r w'; rewrite training_loop_unfold;
    intros H; run_inv.
  all: try match goal with
           | Hb : (0 <? _) = true |- _ => apply Z.ltb_lt in Hb
           | Hb : (0 <? _) = false |- _ => apply Z.ltb_ge in Hb
           end.
  all: try (exists []; split; [apply proceeds_refl|]; split; [done|];
            split; [eauto|]; intros Hf; try done;
            erewrite loop_fuel_spec in Hf by eassumption; lia).
  all: repeat match goal with
       | H : pause_to_validate _ _ = _ |- _ =>
           eapply pause_to_validate_run in H as (? & ? & ? & ? & ?);
           [|eassumption|lia]
       | H : pause_to_checkpoint _ = _ |- _ =>
           apply pause_to_checkpoint_run in H as (? & ? & ? & ? & ?)
       | H : do_some_training _ _ = _ |- _ =>
           apply do_some_training_run in H as (? & ? & ? & ? & ?)
       | H : training_loop _ _ _ = _ |- _ =>
           apply IH in H as (? & ? & ? & ? & ?)
       end.
  all: try done.
  all: eexists; split; [proceeds_chain|]; split; [no_completion_chain|].
  all: split; [try done|].
  all: try done.
  intros Hf.
  match goal with
  | H : (loop_fuel op ?w4 <= fuel)%nat -> _ |- _ =>
      apply H;
      assert (exists d, proceeds w w4 d) as (d & Hadv & _)
        by (eexists; proceeds_chain);
      pose proof (advances_latest _ _ _ Hadv);
      erewrite loop_fuel_spec
        by (eapply batches_until_op_complete_advances; eassumption);
      erewrite loop_fuel_spec in Hf by eassumption
  end.
  repeat match goal with
         | H : Returns ?x = Returns tt -> _ |- _ =>
             destruct x; specialize (H eq_refl)
         end.
  lia.
Qed.

(** ** The end of an operation *)

Lemma completed_by_validation_count s op d :
  completed_by_validation s op d ->
  forall o, completions o d = if Nat.eqb (SearcherOp.op_id op) o then 1%nat else O.
Proof.
  intros (rs & response & ms & m & d' & -> & Hn & _) o. simpl.
  rewrite (Hn o). done.
Qed.

Lemma completed_once_count s op d :
  completed_once s op d ->
  forall o, completions o d = if Nat.eqb (SearcherOp.op_id op) o then 1%nat else O.
Proof.
  intros (d1 & wk & d2 & -> & Hn & _ & Hc) o.
  rewrite completions_app, (Hn o). simpl.
  by eapply completed_by_validation_count.
Qed.

Lemma completed_once_app_l s op d0 d :
  no_completion d0 -> completed_once s op d -> completed_once s op (d0 ++ d).
Proof.
  intros H0 (d1 & wk & d2 & -> & Hn & Hk & Hc).
  exists (d0 ++ d1), wk, d2. rewrite app_assoc.
  split; [done|]. split; [by apply no_completion_app|done].
Qed.

Lemma completed_once_config s s' op d :
  searcher_metric_name s' = searcher_metric_name s ->
  completed_once s op d -> completed_once s' op d.
Proof.
  intros Hs (d1 & wk & d2 & -> & Hn & Hk & rs & response & ms & m & d' & Hc).
  exists d1, wk, d2. repeat split; try done.
  exists rs, response, ms, m, d'. by rewrite Hs.
Qed.

Lemma advances_metric_name w w' d :
  advances w w' d ->
  searcher_metric_name (self w') = searcher_metric_name (self w).
Proof. intros H. by rewrite (adv_config _ _ _ H). Qed.

Lemma validate_op_run op w r w' :
  validate (Some op) w = (r, w') ->
  exists d,
    proceeds w w' d /\ r <> OutOfFuel /\ latest w' = latest w /\
    (no_completion d \/ completed_once (self w) op d).
Proof.
  intros H. pose proof H as Hp.
  apply validate_proceeds in Hp as (d & Hp & Hr & Hl).
  apply validate_run in H as (d' & Hadv & _ & _ & _ & _ & Hc & _).
  assert (d = ESetStatus "validating"
              :: EYield (make_workload Workload.COMPUTE_VALIDATION_METRICS
                           (self w) (step_id (state (self w))) 0) :: d')
    as ->.
  { destruct Hp as [Hp _]. apply adv_trace in Hp, Hadv.
    rewrite Hp in Hadv. by apply app_inv_head in Hadv. }
  eexists. split; [done|]. split; [done|]. split; [done|].
  destruct Hc as [Hc | (op' & rem' & ? & _ & _ & Hc)].
  - left. intros o. simpl. apply Hc.
  - right. simplify_eq.
    exists [ESetStatus "validating"]. eexists _, d'.
    split; [reflexivity|]. split; [intros o; reflexivity|]. by split.
Qed.

Lemma finish_summary op w w1 w2 d1 d2 :
  proceeds w w1 d1 -> no_completion d1 -> proceeds w1 w2 d2 ->
  no_completion d2 \/ completed_once (self w1) op d2 ->
  proceeds w w2 (d1 ++ d2) /\
  (forall o, o <> SearcherOp.op_id op -> completions o (d1 ++ d2) = O) /\
  (completions (SearcherOp.op_id op) (d1 ++ d2) <= 1)%nat /\
  (SearcherOp.op_id op ∈ completed w2 -> SearcherOp.op_id op ∉ completed w ->
   completed_once (self w) op (d1 ++ d2)).
Proof.
  intros H1 Hn1 H2 Hc.
  pose proof (proceeds_trans _ _ _ _ _ H1 H2) as H12.
  split; [done|].
  assert (forall o, completions o (d1 ++ d2) = completions o d2) as Hcount.
  { intros o. by rewrite completions_app, (Hn1 o). }
  destruct Hc as [Hn2 | Hc].
  - split; [intros o _; by rewrite Hcount, (Hn2 o)|].
    split; [rewrite Hcount, (Hn2 _); lia|].
    intros Hin Hout. destruct H12 as [H12 _].
    apply (adv_completed _ _ _ H12) in Hin as [?|Hpos]; [done|].
    rewrite Hcount, (Hn2 _) in Hpos. lia.
  - pose proof (completed_once_count _ _ _ Hc) as Hone.
    split; [|split].
    + intros o Ho. rewrite Hcount, Hone.
      destruct (Nat.eqb_spec (SearcherOp.op_id op) o); congruence.
    + rewrite Hcount, Hone. by rewrite Nat.eqb_refl.
    + intros _ _. apply completed_once_app_l; [done|].
      eapply completed_once_config; [|exact Hc].
      destruct H1 as [H1 _]. symmetry. by eapply advances_metric_name.
Qed.

Lemma finish_op_run op w r w' :
  finish_op op w = (r, w') ->
  exists d,
    proceeds w w' d /\ r <> OutOfFuel /\
    (forall o, o <> SearcherOp.op_id op -> completions o d = O) /\
    (completions (SearcherOp.op_id op) d <= 1)%nat /\
    (r = Returns tt -> SearcherOp.op_id op ∉ completed w ->
     completed_once (self w) op d).
Proof.
  unfold finish_op. intros H. run_inv.
  all: repeat match goal with
       | H : checkpoint _ _ = _ |- _ =>
           apply checkpoint_proceeds in H as (? & ? & ? & ? & ?)
       | H : validate (Some _) _ = _ |- _ =>
           apply validate_op_run in H as (? & ? & ? & ? & ?)
       end.
  all: match goal with
       | |- exists d, proceeds ?w0 ?w2 d /\ _ =>
           let Hs := fresh "Hs" in
           assert (exists w1 d1 d2,
                     proceeds w0 w1 d1 /\ no_completion d1 /\
                     proceeds w1 w2 d2 /\
                     (no_completion d2 \/ completed_once (self w1) op d2))
             as (w1 & d1 & d2 & Hs)
             by (eexists _, _, _;
                 split; [eassumption + apply proceeds_refl|];
                 split; [assumption + apply no_completion_nil|];
                 split; [eassumption + apply proceeds_refl|];
                 (eassumption + (left; apply no_completion_nil)));
           destruct Hs as (Hs1 & Hs2 & Hs3 & Hs4);
           destruct (finish_summary op _ _ _ _ _ Hs1 Hs2 Hs3 Hs4)
             as (Hp & Hothers & Hle & Honce);
           exists (d1 ++ d2)
       end.
  all: split; [done|]; split; [done|]; split; [done|]; split; [done|].
  all: intros ? Hfresh; simplify_eq.
  all: apply Honce; [|done].
  all: match goal with
       | H : bool_decide _ = true |- _ => by apply bool_decide_eq_true in H
       end.
Qed.

(** ** One operation, and the feed of operations *)

Lemma advances_fresh w w' d o :
  advances w w' d -> completions o d = O -> o ∉ completed w -> o ∉ completed w'.
Proof.
  intros H Hc Ho Hin. apply (adv_completed _ _ _ H) in Hin as [?|?]; [done|lia].
Qed.

Lemma run_op_run op w r w' :
  run_op op w = (r, w') ->
  exists d,
    proceeds w w' d /\ r <> OutOfFuel /\
    (forall o, o <> SearcherOp.op_id op -> completions o d = O) /\
    (completions (SearcherOp.op_id op) d <= 1)%nat /\
    (r = Returns tt -> SearcherOp.op_id op ∉ completed w ->
     completed_once (self w) op d).
Proof.
  unfold run_op. intros H. run_inv.
  all: match goal with
       | H : training_loop _ _ _ = _ |- _ =>
           apply training_loop_run in H as (d1 & Hp1 & Hn1 & _ & Hfuel);
           specialize (Hfuel (le_n _))
       end.
  all: try done.
  - apply finish_op_run in H as (d2 & Hp2 & Hr & Ho & Hle & Honce).
    exists (d1 ++ d2). split; [by eapply proceeds_trans|]. split; [done|].
    split; [|split].
    + intros o Hne. by rewrite completions_app, (Hn1 o), Ho.
    + by rewrite completions_app, (Hn1 _).
    + intros Hok Hfresh. apply completed_once_app_l; [done|].
      eapply completed_once_config;
        [|apply Honce; [done|]].
      * destruct Hp1 as [Hp1 _]. symmetry. by eapply advances_metric_name.
      * destruct Hp1 as [Hp1 _]. eapply advances_fresh; eauto.
  - exists d1. split; [done|]. split; [done|].
    split; [intros; apply Hn1|]. split; [rewrite (Hn1 _); lia|done].
Qed.

Lemma completed_in_turn_config s s' ops d :
  searcher_metric_name s' = searcher_metric_name s ->
  completed_in_turn s ops d -> completed_in_turn s' ops d.
Proof.
  intros Hs. revert d. induction ops as [|op ops IH]; intros d; simpl; [done|].
  intros (d1 & d2 & -> & H1 & H2). exists d1, d2.
  split; [done|]. split; [by eapply completed_once_config|by apply IH].
Qed.

Lemma for_ops_run ops w r w' :
  for_ops ops w = (r, w') ->
  exists d,
    proceeds w w' d /\ r <> OutOfFuel /\
    (forall o, o ∉ map SearcherOp.op_id ops -> completions o d = O) /\
    (r = Returns tt ->
     NoDup (map SearcherOp.op_id ops) ->
     (forall o, o ∈ map SearcherOp.op_id ops -> o ∉ completed w) ->
     completed_in_turn (self w) ops d).
Proof.
  revert w r w'. induction ops as [|op ops IH]; intros w r w' H; simpl in H.
  - run_inv. exists []. split; [apply proceeds_refl|]. by repeat split.
  - run_inv; repeat match goal with x : unit |- _ => destruct x end.
    + match goal with H : run_op _ _ = _ |- _ =>
        apply run_op_run in H as (d1 & Hp1 & _ & Ho1 & _ & Honce)
      end.
      apply IH in H as (d2 & Hp2 & Hr & Ho2 & Hturn).
      exists (d1 ++ d2). split; [by eapply proceeds_trans|]. split; [done|].
      split.
      * intros o Ho. simpl in Ho. apply not_elem_of_cons in Ho as [Hne Ho].
        rewrite completions_app. by rewrite Ho1, Ho2.
      * intros Hok Hnd Hfresh. apply NoDup_cons in Hnd as [Hhd Hnd].
        exists d1, d2. split; [done|].
        split; [apply Honce; [done|]; apply Hfresh; simpl; by left|].
        eapply completed_in_turn_config;
          [|apply Hturn; [done|done|]].
        -- destruct Hp1 as [Hp1 _]. symmetry. by eapply advances_metric_name.
        -- intros o Ho. destruct Hp1 as [Hp1 _].
           eapply advances_fresh; [done| |apply Hfresh; simpl; by right].
           apply Ho1. intros ->. done.
    + match goal with H : run_op _ _ = _ |- _ =>
        apply run_op_run in H as (d1 & Hp1 & Hr & Ho1 & _ & _)
      end.
      exists d1. split; [done|]. split; [done|]. split; [|done].
      intros o Ho. simpl in Ho. apply not_elem_of_cons in Ho as [Hne Ho].
      by apply Ho1.
    + match goal with H : run_op _ _ = _ |- _ =>
        by apply run_op_run in H as (d1 & Hp1 & Hr & _)
      end.
Qed.

(** ** The whole generator *)

Lemma try_except_ShouldExit_run {W} (body handler : Gen W unit) (u : W) r u' :
  try_except_ShouldExit body handler u = (r, u') ->
  (exists u1, body u = (Raises ShouldExit, u1) /\ handler u1 = (r, u')) \/
  (body u = (r, u') /\ r <> Raises ShouldExit).
Proof.
  unfold try_except_ShouldExit.
  destruct (body u) as [[a|e|] u1]; intros H.
  - right. by simplify_eq.
  - destruct e; first [left; by eauto | right; by simplify_eq].
  - right. by simplify_eq.
Qed.

Lemma try_finally_run {W} (body cleanup : Gen W unit) (u : W) r u' :
  try_finally body cleanup u = (r, u') ->
  exists u1, body u = (r, u1) /\ u' = snd (cleanup u1).
Proof.
  unfold try_finally. destruct (body u) as [r1 u1]. intros H.
  exists u1. by simplify_eq.
Qed.

Lemma initial_validation_run w r w' :
  initial_validation w = (r, w') ->
  exists d, proceeds w w' d /\ no_completion d /\ r <> OutOfFuel.
Proof.
  unfold initial_validation. intros H. run_inv.
  - pose proof H as Hp. apply validate_proceeds in Hp as (d & Hp & Hr & _).
    apply validate_run in H as (d' & Hadv & _ & _ & _ & _ & Hc & _).
    exists d. split; [done|]. split; [|done].
    assert (d = ESetStatus "validating"
                :: EYield (make_workload Workload.COMPUTE_VALIDATION_METRICS
                             (self w) (step_id (state (self w))) 0) :: d')
      as ->.
    { destruct Hp as [Hp _]. apply adv_trace in Hp, Hadv.
      rewrite Hp in Hadv. by apply app_inv_head in Hadv. }
    destruct Hc as [Hc | (? & ? & ? & _)]; [|done].
    intros o. simpl. apply Hc.
  - exists []. split; [apply proceeds_refl|]. by split.
Qed.

Lemma on_should_exit_run w r w' :
  on_should_exit w = (r, w') ->
  exists d, proceeds w w' d /\ no_completion d /\ r <> OutOfFuel.
Proof.
  unfold on_should_exit. intros H. run_inv.
  - apply checkpoint_proceeds in H as (d & ? & ? & ? & _). by exists d.
  - exists []. split; [apply proceeds_refl|]. by split.
Qed.

Lemma emit_proceeds (e : @Event metric) w :
  yields [e] = [] -> no_completion [e] ->
  proceeds w (snd (emit e w)) [e].
Proof.
  intros Hy Hc. split.
  - split.
    + reflexivity.
    + reflexivity.
    + change (self w = set_state (state (self w)) (self w)).
      by rewrite set_state_id.
    + unfold batch_marks. rewrite Hy. simpl. unfold latest. simpl. lia.
    + intros H. exact H.
    + intros o.
      change (o ∈ completed w <->
              o ∈ completed w \/ (0 < completions o [e])%nat).
      rewrite (Hc o). split; [auto | intros [?|?]; [done|lia]].
  - rewrite Hy. constructor.
Qed.

Lemma iter_run ops w r w' :
  iter ops w = (r, w') ->
  exists d, proceeds w w' d /\ r <> OutOfFuel.
Proof.
  unfold iter. intros H. apply bind_run in H as [(a & w1 & He & H)|[H|H]].
  2: { destruct H as (e & H & _). unfold emit in H. simplify_eq. }
  2: { destruct H as [H _]. unfold emit in H. simplify_eq. }
  assert (proceeds w w1 [EPreemptionStart]) as Hstart.
  { replace w1 with (snd (emit EPreemptionStart w)) by by rewrite He.
    apply emit_proceeds; [done|]. intros o. done. }
  apply try_finally_run in H as (w2 & H & ->).
  assert (proceeds w2 (snd (emit EPreemptionClose w2)) [EPreemptionClose])
    as Hclose by (apply emit_proceeds; [done|]; intros o; done).
  assert (exists d, proceeds w1 w2 d /\ r <> OutOfFuel) as (d & Hbody & Hr).
  { apply try_except_ShouldExit_run in H as [(w3 & H & Hh) | [H Hne]].
    - apply on_should_exit_run in Hh as (d3 & Hp3 & _ & Hr).
      apply bind_run in H as [(? & w4 & Hi & H)|[(? & Hi & ?)|(Hi & ?)]].
      + apply initial_validation_run in Hi as (d1 & Hp1 & _).
        apply for_ops_run in H as (d2 & Hp2 & _).
        eexists. split; [proceeds_chain|done].
      + apply initial_validation_run in Hi as (d1 & Hp1 & _).
        eexists. split; [proceeds_chain|done].
      + done.
    - apply bind_run in H as [(? & w4 & Hi & H)|[(? & Hi & ?)|(Hi & ?)]].
      + apply initial_validation_run in Hi as (d1 & Hp1 & _).
        apply for_ops_run in H as (d2 & Hp2 & Hr & _).
        eexists. split; [proceeds_chain|done].
      + apply initial_validation_run in Hi as (d1 & Hp1 & _).
        eexists. split; [proceeds_chain|by subst].
      + apply initial_validation_run in Hi as (d1 & Hp1 & _ & Hr). done. }
  eexists. split; [proceeds_chain|done].
Qed.

(** ** The counters stay in order (C1) *)

Lemma operation_step_proceeds w w' :
  operation_step w w' -> exists d, proceeds w w' d.
Proof.
  intros [op w0 | oo w0 | b w0 | ops w0].
  - destruct (do_some_training op w0) as [r w1] eqn:H.
    apply do_some_training_run in H as (d & ? & _). by exists d.
  - destruct (validate oo w0) as [r w1] eqn:H.
    apply validate_proceeds in H as (d & ? & _). by exists d.
  - destruct (checkpoint b w0) as [r w1] eqn:H.
    apply checkpoint_proceeds in H as (d & ? & _). by exists d.
  - destruct (iter ops w0) as [r w1] eqn:H.
    apply iter_run in H as (d & ? & _). by exists d.
Qed.

Lemma init_state env s : init env = Ok s -> state s = fresh_state (det_trial_id env).
Proof. unfold init. repeat case_match; intros; by simplify_eq. Qed.

(** The counters of a state are in order, and no batch count is negative. *)
Lemma load_state_in_order st s :
  counters_ok st -> 0 <= latest_batch st ->
  counters_ok (state s) -> 0 <= latest_batch (state s) ->
  counters_ok (state (load_state (vars st) s)) /\
  0 <= latest_batch (state (load_state (vars st) s)) /\
  (latest_batch (state s) = 0 ->
   latest_batch (state s) <= latest_batch (state (load_state (vars st) s))).
Proof.
  intros [Hc Hv] Hl [Hsc Hsv] Hls. unfold load_state, counters_ok. simpl.
  assert (SavableState_init (trial_id st) (vars st) = st) as -> by by destruct st.
  destruct (negb (trial_id st =? _trial_id s)); [lia|].
  case_bool_decide; simpl; lia.
Qed.

Lemma reachable_in_order w :
  reachable w ->
  counters_ok (state (self w)) /\ 0 <= latest_batch (state (self w)).
Proof.
  induction 1 as [env s e Hinit | w0 env s e _ [IHc IHl] Hinit
                 | w w' _ [IHc IHl] Hstep]; simpl.
  - rewrite (init_state _ _ Hinit). by repeat split.
  - pose proof (init_state _ _ Hinit) as Hst.
    destruct (load_state_in_order (state (self w0)) s) as (? & ? & _);
      rewrite ?Hst; try done.
  - apply operation_step_proceeds in Hstep as (d & [Hadv _]). split.
    + by apply (adv_counters _ _ _ Hadv).
    + apply advances_latest in Hadv. unfold latest in Hadv. lia.
Qed.

(** C1: in every state that a trial goes through, by construction, by
    [load_state] into the newly built sequencer of a snapshot that
    [get_state] took in such a state, and by the operations train, validate,
    checkpoint and the whole generator, [last_ckpt <= latest_batch] and
    [last_val <= latest_batch]; none of the operations ever takes
    [latest_batch] down, [load_state] into the newly built sequencer
    included; and the values of [latest_batch] that the workloads yielded
    by an operation carry never go down and lie between the values of
    [latest_batch] before and after it. *)
Theorem counters_stay_in_order w :
  reachable w ->
  counters_ok (state (self w)) /\
  (forall w', operation_step w w' ->
     latest w <= latest w' /\
     exists d, trace w' = trace w ++ d /\
               nondecreasing (batch_marks d) /\
               (forall (i : nat) b, batch_marks d !! i = Some b ->
                                    latest w <= b <= latest w')) /\
  (forall env s,
     init env = Ok s ->
     latest_batch (state s)
     <= latest_batch (state (load_state (get_state (self w)) s))).
Proof.
  intros Hw. destruct (reachable_in_order _ Hw) as [Hc Hl].
  split; [done|]. split.
  - intros w' Hstep. apply operation_step_proceeds in Hstep as (d & [Hadv _]).
    split; [by eapply advances_latest|].
    exists d. split; [by apply (adv_trace _ _ _ Hadv)|].
    pose proof (adv_marks _ _ _ Hadv) as Hm. split.
    + by eapply climbs_nondecreasing.
    + intros i b Hb. by eapply climbs_bounds.
  - intros env s Hinit. pose proof (init_state _ _ Hinit) as Hst.
    assert (counters_ok (state s) /\ 0 <= latest_batch (state s))
      as [Hsc Hsl] by (rewrite Hst; by repeat split).
    destruct (load_state_in_order (state (self w)) s Hc Hl Hsc Hsl)
      as (_ & _ & Hle).
    unfold get_state. apply Hle. by rewrite Hst.
Qed.

(** ** The size of a training step (C2) *)

Lemma next_num_batches_spec s op rem :
  batches_until_op_complete s op = Ok rem ->
  next_num_batches s op =
  Ok (Z.max 1 (Z.min (batches_until_ckpt s)
              (Z.min (batches_until_val s) (Z.min rem (scheduling_unit s))))).
Proof. unfold next_num_batches. by intros ->. Qed.

Lemma do_some_training_yield op w r w' rem :
  do_some_training op w = (r, w') ->
  batches_until_op_complete (self w) op = Ok rem ->
  exists d,
    trace w' =
    trace w ++
    ESetStatus "training"
    :: EYield (make_workload Workload.RUN_STEP (self w)
                 (step_id (state (self w)) + 1)
                 (Z.max 1 (Z.min (batches_until_ckpt (self w))
                          (Z.min (batches_until_val (self w))
                          (Z.min rem (scheduling_unit (self w)))))))
    :: d /\
    yields d = [].
Proof.
  unfold do_some_training. intros H Hrem. run_inv.
  - erewrite next_num_batches_spec in * by eassumption. simplify_eq.
    apply train_run in H as (d & Hadv & Hy & _); [|lia].
    exists d. split; [|done]. by apply (adv_trace _ _ _ Hadv).
  - erewrite next_num_batches_spec in * by eassumption. simplify_eq.
Qed.

Lemma pause_to_validate_skip op w :
  1 <= batches_until_val (self w) -> pause_to_validate op w = (Returns tt, w).
Proof.
  intros H. unfold pause_to_validate, bind, get_self, when.
  by rewrite (proj2 (Z.ltb_ge _ _)) by lia.
Qed.

Lemma pause_to_checkpoint_skip w :
  1 <= batches_until_ckpt (self w) -> pause_to_checkpoint w = (Returns tt, w).
Proof.
  intros H. unfold pause_to_checkpoint, bind, get_self, when.
  by rewrite (proj2 (Z.ltb_ge _ _)) by lia.
Qed.

(** The events of an iteration of the [while] loop that starts in [w] with
    batches left to train: the iteration runs its three steps in turn. *)
Lemma training_loop_iteration fuel op w rem :
  batches_until_op_complete (self w) op = Ok rem -> 0 < rem ->
  training_loop (S fuel) op w =
  (pause_to_validate op;;
   pause_to_checkpoint;;
   do_some_training op;;
   training_loop fuel op)%gen w.
Proof.
  intros Hrem Hpos. rewrite training_loop_unfold.
  unfold bind at 1. unfold get_self. unfold bind at 1. unfold lift.
  rewrite Hrem. by rewrite (proj2 (Z.ltb_lt _ _)) by lia.
Qed.

(** ** When validations and checkpoints are due (C3) *)

Lemma starts_with_nil_trans pre w w1 w2 :
  starts_with pre w w1 -> starts_with [] w1 w2 -> starts_with pre w w2.
Proof.
  intros (d1 & H1) (d2 & H2). exists (d1 ++ d2).
  rewrite H2, H1. simpl. by rewrite <- !app_assoc.
Qed.

Lemma proceeds_starts_with w w' d : proceeds w w' d -> starts_with [] w w'.
Proof. intros [H _]. exists d. by apply (adv_trace _ _ _ H). Qed.

Lemma bind_starts_with {A B} (m : M A) (k : A -> M B) pre w r w' :
  bind m k w = (r, w') ->
  (forall r1 w1, m w = (r1, w1) -> starts_with pre w w1) ->
  (forall a w1 r2 w2, k a w1 = (r2, w2) -> starts_with [] w1 w2) ->
  starts_with pre w w'.
Proof.
  intros H Hm Hk.
  apply bind_run in H as [(a & w1 & H1 & H2)|[(e & H1 & _)|[H1 _]]].
  - eapply starts_with_nil_trans; eauto.
  - eauto.
  - eauto.
Qed.

Lemma validate_starts_with oo w r w' :
  validate oo w = (r, w') -> starts_with (validation_events (self w)) w w'.
Proof.
  intros H. apply validate_run in H as (d & Hadv & _).
  exists d. by apply (adv_trace _ _ _ Hadv).
Qed.

Lemma checkpoint_starts_with b w r w' :
  checkpoint b w = (r, w') -> starts_with (checkpoint_events (self w)) w w'.
Proof.
  intros H. apply checkpoint_run in H as (d & Hadv & _).
  exists d. by apply (adv_trace _ _ _ Hadv).
Qed.

Lemma pause_to_validate_due op w :
  batches_until_val (self w) < 1 ->
  pause_to_validate op w = validate (Some op) w.
Proof.
  intros H. unfold pause_to_validate, bind, get_self, when.
  by rewrite (proj2 (Z.ltb_lt _ _)) by lia.
Qed.

Lemma pause_to_checkpoint_due w :
  batches_until_ckpt (self w) < 1 -> pause_to_checkpoint w = checkpoint false w.
Proof.
  intros H. unfold pause_to_checkpoint, bind, get_self, when.
  by rewrite (proj2 (Z.ltb_lt _ _)) by lia.
Qed.

(** ** The order of validations and checkpoints (C4) *)

Lemma pause_to_checkpoint_extends w r w' :
  pause_to_checkpoint w = (r, w') -> starts_with [] w w'.
Proof.
  intros H. apply pause_to_checkpoint_run in H as (d & Hp & _).
  by eapply proceeds_starts_with.
Qed.

Lemma do_some_training_extends op w r w' :
  do_some_training op w = (r, w') -> starts_with [] w w'.
Proof.
  intros H. apply do_some_training_run in H as (d & Hp & _).
  by eapply proceeds_starts_with.
Qed.

Lemma training_loop_starts_with fuel op w r w' :
  training_loop fuel op w = (r, w') -> starts_with [] w w'.
Proof.
  intros H. apply training_loop_run in H as (d & Hp & _).
  by eapply proceeds_starts_with.
Qed.

Lemma training_steps_extend fuel op w r w' :
  (do_some_training op;; training_loop fuel op)%gen w = (r, w') ->
  starts_with [] w w'.
Proof.
  intros H. eapply bind_starts_with; [exact H| |].
  - intros. by eapply do_some_training_extends.
  - intros ? ? ? ? Hk. cbv beta in Hk. by eapply training_loop_starts_with.
Qed.

Lemma after_validation_extends fuel op w r w' :
  (pause_to_checkpoint;; do_some_training op;; training_loop fuel op)%gen w
  = (r, w') ->
  starts_with [] w w'.
Proof.
  intros H. eapply bind_starts_with; [exact H| |].
  - intros. by eapply pause_to_checkpoint_extends.
  - intros ? ? ? ? Hk. cbv beta in Hk. by eapply training_steps_extend.
Qed.

Lemma assert_completed_run op w r w' :
  (c <- op_completed op;;
   if c then ret tt
   else raise (AssertionError "logic error; op was never completed"))%gen w
  = (r, w') ->
  w' = w.
Proof. intros H. by run_inv. Qed.

Lemma finish_op_tail_extends op w r w' :
  (s <- get_self;;
   when (negb (validation_is_current s)) (validate (Some op));;
   c <- op_completed op;;
   if c then ret tt
   else raise (AssertionError "logic error; op was never completed"))%gen w
  = (r, w') ->
  (validation_is_current (self w) = false ->
   starts_with (validation_events (self w)) w w') /\
  (validation_is_current (self w) = true -> w' = w).
Proof.
  intros H. unfold bind at 1, get_self in H. split; intros Hv; rewrite Hv in H.
  - simpl in H.
    apply bind_run in H as [(a & w1 & H1 & H2)|[(e & H1 & _)|[H1 _]]].
    + apply assert_completed_run in H2 as ->. by eapply validate_starts_with.
    + by eapply validate_starts_with.
    + by eapply validate_starts_with.
  - simpl in H. unfold bind at 1, ret in H. by apply assert_completed_run in H.
Qed.

(** ** A training step that exits with INVALID_HP (C5) *)

Lemma respond_all_raise (rs : list (@Response metric)) out e :
  respond_all rs out = Raise e -> e <> ShouldExit.
Proof.
  revert out. induction rs as [|[|m] rs IH]; intros out; simpl; try done.
  - intros ?; by simplify_eq.
  - apply IH.
Qed.

Lemma get_storage_metadata_raise (response : @Metrics metric) e :
  get_storage_metadata response = Raise e -> e <> ShouldExit.
Proof.
  unfold get_storage_metadata. repeat case_match; intros; by simplify_eq.
Qed.

Lemma checkpoint_exiting_ends w r w' :
  checkpoint true w = (r, w') -> r <> Raises ShouldExit.
Proof.
  unfold checkpoint. intros H. run_inv'; try done.
  - intros ?; simplify_eq. by eapply get_storage_metadata_raise.
  - intros ?; simplify_eq. by eapply respond_all_raise.
Qed.

Lemma train_invalid_hp n op w m :
  train_response n w = Ok (Some m) -> exited_with INVALID_HP m = true ->
  train n op w = (Raises ShouldExit, after_invalid_hp n w).
Proof.
  unfold train_response. intros Hrs Hm.
  unfold train, after_invalid_hp.
  unfold bind at 1, emit at 1. unfold bind at 1, get_self at 1.
  cbn [self io trace completed].
  unfold yield_and_await_response, yield_to_consumer.
  unfold bind at 1. unfold bind at 1. cbn [self io trace completed].
  rewrite <- app_assoc. cbn [app].
  unfold bind at 1, lift. rewrite Hrs. unfold ret. rewrite Hm.
  unfold bind, emit, raise. cbn [self io trace completed].
  by rewrite <- !app_assoc.
Qed.

Lemma on_should_exit_yields w r w' :
  on_should_exit w = (r, w') ->
  r <> Raises ShouldExit /\ r <> OutOfFuel /\
  latest_batch (state (self w')) = latest_batch (state (self w)) /\
  total_records (state (self w')) = total_records (state (self w)) /\
  step_id (state (self w')) = step_id (state (self w)) /\
  exists d,
    trace w' = trace w ++ d /\
    yields d =
    if checkpoint_is_current (self w) then []
    else [make_workload Workload.CHECKPOINT_MODEL (self w)
            (step_id (state (self w))) 0].
Proof.
  unfold on_should_exit. intros H. unfold bind at 1, get_self in H.
  destruct (checkpoint_is_current (self w)); simpl in H.
  - unfold ret in H. simplify_eq. repeat split; try done.
    exists []. by rewrite app_nil_r.
  - pose proof (checkpoint_exiting_ends _ _ _ H) as Hne.
    apply checkpoint_run in H as (d & Hadv & Hy & _ & Hr & Hst).
    rewrite Hst. repeat split; try done.
    eexists. split; [by apply (adv_trace _ _ _ Hadv)|].
    simpl. by rewrite Hy.
Qed.

(** C5: when the response to a training workload has the exit reason
    [INVALID_HP], the training step reports the early exit and raises
    [ShouldExit] without touching the state, so [latest_batch],
    [total_records] and [step_id] are unchanged; the loops of the generator
    end there, with no further event; and the generator then yields the
    final checkpoint workload, exactly once, if [last_ckpt <> latest_batch]
    and nothing otherwise, closes the preemption watcher and ends, with the
    counters of training still unchanged. *)
Theorem invalid_hp_aborts n op w m :
  train_response n w = Ok (Some m) ->
  exited_reason m = Some INVALID_HP ->
  train n op w = (Raises ShouldExit, after_invalid_hp n w) /\
  self (after_invalid_hp n w) = self w /\
  (exists d, trace (after_invalid_hp n w) = trace w ++ d ++ [EReportEarlyExit] /\
             yields d = [make_workload Workload.RUN_STEP (self w)
                           (step_id (state (self w)) + 1) n]) /\
  (forall rest w0 wa rem,
     batches_until_op_complete (self w0) op = Ok rem -> 0 < rem ->
     pause_to_validate op w0 = (Returns tt, wa) ->
     pause_to_checkpoint wa = (Returns tt, w) ->
     next_num_batches (self w) op = Ok n ->
     for_ops (op :: rest) w0 = (Raises ShouldExit, after_invalid_hp n w)) /\
  (forall ops w0,
     (initial_validation;; for_ops ops)%gen (snd (emit EPreemptionStart w0))
     = (Raises ShouldExit, after_invalid_hp n w) ->
     exists r w' d,
       iter ops w0 = (r, w') /\
       r <> Raises ShouldExit /\ r <> OutOfFuel /\
       trace w' = trace (after_invalid_hp n w) ++ d ++ [EPreemptionClose] /\
       yields d =
         (if checkpoint_is_current (self w) then []
          else [make_workload Workload.CHECKPOINT_MODEL (self w)
                  (step_id (state (self w))) 0]) /\
       latest_batch (state (self w')) = latest_batch (state (self w)) /\
       total_records (state (self w')) = total_records (state (self w)) /\
       step_id (state (self w')) = step_id (state (self w))).
Proof.
  intros Hrs Hm.
  assert (exited_with INVALID_HP m = true) as Hexit.
  { unfold exited_with. rewrite Hm. apply String.eqb_refl. }
  pose proof (train_invalid_hp n op w m Hrs Hexit) as Htrain.
  split; [done|]. split; [done|]. split.
  { eexists [_; _; _]. split; [reflexivity|reflexivity]. }
  split.
  - intros rest w0 wa rem Hrem Hpos Hpv Hpc Hn.
    simpl. unfold bind at 1. unfold run_op. unfold bind at 1.
    rewrite (loop_fuel_spec _ _ _ Hrem).
    destruct (Z.to_nat rem) as [|fuel] eqn:Hfuel; [lia|].
    rewrite (training_loop_iteration _ _ _ rem) by done.
    unfold bind at 1. rewrite Hpv. unfold bind at 1. rewrite Hpc.
    unfold bind at 1. unfold do_some_training.
    unfold bind at 1, get_self. unfold bind at 1, lift. rewrite Hn.
    by rewrite Htrain.
  - intros ops w0 Hbody.
    destruct (on_should_exit (after_invalid_hp n w)) as [r w2] eqn:Hexc.
    exists r, (snd (emit EPreemptionClose w2)).
    pose proof (on_should_exit_yields _ _ _ Hexc)
      as (Hne & Hfuel & Hl & Ht & Hs & d & Htr & Hy).
    exists d. split.
    + unfold iter. unfold bind at 1.
      destruct (emit EPreemptionStart w0) as [r0 w1] eqn:Hstart.
      unfold emit in Hstart. simplify_eq.
      unfold try_finally, try_except_ShouldExit.
      simpl in Hbody. rewrite Hbody. by rewrite Hexc.
    + repeat split; try done. simpl. rewrite Htr. by rewrite <- app_assoc.
Qed.

(** ** Every operation is completed once (C6) *)

Lemma finish_op_returns op w r w' :
  finish_op op w = (r, w') -> r = Returns tt ->
  SearcherOp.op_id op ∈ completed w'.
Proof.
  unfold finish_op. intros H Hr. subst r. run_inv.
  all: match goal with
       | H : bool_decide _ = true |- _ => by apply bool_decide_eq_true in H
       end.
Qed.

Lemma finish_op_nothing_to_do op w :
  checkpoint_is_current (self w) = true ->
  validation_is_current (self w) = true ->
  SearcherOp.op_id op ∉ completed w ->
  finish_op op w =
  (Raises (AssertionError "logic error; op was never completed"), w).
Proof.
  intros Hc Hv Hf. unfold finish_op.
  unfold bind at 1, get_self. rewrite Hc. simpl.
  unfold bind at 1, ret. unfold bind at 1. rewrite Hv. simpl.
  unfold bind at 1. unfold bind, op_completed. unfold ret at 1.
  by rewrite bool_decide_eq_false_2.
Qed.

(** C6: the body of the loop over the operations always comes to an end,
    and calls [complete] on its operation at most once and on no other
    operation; when it returns, so that the generator goes on to ask for the
    next operation, it has called [complete] on its operation exactly once,
    right after the response to a validation workload and with the metric
    that this response has under the configured name; a feed of operations
    that is processed to its end is completed in turn, one call per
    operation; and the end of the body without a call of [complete] is the
    assertion failure "logic error; op was never completed". *)
Theorem operations_completed_once op w :
  (forall r w',
     run_op op w = (r, w') ->
     r <> OutOfFuel /\
     exists d,
       trace w' = trace w ++ d /\
       (completions (SearcherOp.op_id op) d <= 1)%nat /\
       (forall o, o <> SearcherOp.op_id op -> completions o d = O) /\
       (r = Returns tt -> SearcherOp.op_id op ∉ completed w ->
        completed_once (self w) op d /\
        completions (SearcherOp.op_id op) d = 1%nat)) /\
  (forall ops w',
     for_ops ops w = (Returns tt, w') ->
     NoDup (map SearcherOp.op_id ops) ->
     (forall o, o ∈ map SearcherOp.op_id ops -> o ∉ completed w) ->
     exists d, trace w' = trace w ++ d /\ completed_in_turn (self w) ops d) /\
  (forall r w',
     finish_op op w = (r, w') ->
     SearcherOp.op_id op ∉ completed w' -> r <> Returns tt) /\
  (checkpoint_is_current (self w) = true ->
   validation_is_current (self w) = true ->
   SearcherOp.op_id op ∉ completed w ->
   finish_op op w =
   (Raises (AssertionError "logic error; op was never completed"), w)).
Proof.
  split; [|split; [|split]].
  - intros r w' H.
    apply run_op_run in H as (d & [Hadv _] & Hr & Ho & Hle & Honce).
    split; [done|]. exists d.
    split; [by apply (adv_trace _ _ _ Hadv)|]. split; [done|]. split; [done|].
    intros Hok Hfresh. specialize (Honce Hok Hfresh). split; [done|].
    rewrite (completed_once_count _ _ _ Honce). by rewrite Nat.eqb_refl.
  - intros ops w' H Hnd Hfresh.
    apply for_ops_run in H as (d & [Hadv _] & _ & _ & Hturn).
    exists d. split; [by apply (adv_trace _ _ _ Hadv)|]. by apply Hturn.
  - intros r w' H Hnot Hr. by eapply Hnot, finish_op_returns.
  - apply finish_op_nothing_to_do.
Qed.

(** ** The handshake of a yield (C9) *)

Lemma yield_and_await_response_eq wkld w :
  yield_and_await_response wkld w =
  (match respond_all (executor (io w) (trace w ++ [EYield wkld])) None with
   | Ok (Some m) => Returns m
   | Ok None => Raises (AssertionError "out is not None")
   | Raise e => Raises e
   end,
   {| io := io w; self := self w; completed := completed w;
      trace := trace w ++
               [EYield wkld;
                EResume (executor (io w) (trace w ++ [EYield wkld]))] |}).
Proof.
  unfold yield_and_await_response, yield_to_consumer.
  unfold bind at 1. unfold bind at 1, lift.
  by destruct (respond_all _ _) as [[?|]|?].
Qed.

Lemma respond_all_last (rs : list (@Response metric)) out m :
  Forall (fun r => r <> Skipped) rs ->
  respond_all (rs ++ [RMetrics m]) out = Ok (Some m).
Proof.
  revert out. induction rs as [|[|m'] rs IH]; intros out Hrs; simpl.
  - done.
  - by inversion Hrs.
  - apply IH. by inversion Hrs.
Qed.

(** C9, as amended: when the generator is resumed without any call of the
    response function, the assertion [out is not None] fails, and a call of
    the response function with [Skipped] fails its own assertion; but a
    second call for the same workload is not noticed: of any number of
    calls with metrics, the last one is what [yield_and_await_response]
    returns. *)
Theorem handshake_responses wkld w :
  let rs := executor (io w) (trace w ++ [EYield wkld]) in
  let w' := {| io := io w; self := self w; completed := completed w;
               trace := trace w ++ [EYield wkld; EResume rs] |} in
  (rs = [] ->
   yield_and_await_response wkld w =
   (Raises (AssertionError "out is not None"), w')) /\
  (forall m, rs = [RMetrics m] ->
   yield_and_await_response wkld w = (Returns m, w')) /\
  (forall rs' m, rs = rs' ++ [RMetrics m] ->
   Forall (fun r => r <> Skipped) rs' ->
   yield_and_await_response wkld w = (Returns m, w')) /\
  (forall rs', rs = Skipped :: rs' ->
   yield_and_await_response wkld w =
   (Raises (AssertionError "not isinstance(r, workload.Skipped)"), w')).
Proof.
  intros rs w'. rewrite yield_and_await_response_eq. fold rs. fold w'.
  split; [|split; [|split]].
  - by intros ->.
  - by intros m ->.
  - intros rs' m -> Hrs. by rewrite respond_all_last.
  - by intros rs' ->.
Qed.

(** ** Lengths in batches (C7) *)

(** C7: with exactly one field set, [as_batches] returns [batches] as it
    is; [max(records // global_batch_size, 1)] for [records] when
    [global_batch_size > 0]; and
    [max((epochs * records_per_epoch) // global_batch_size, 1)] for [epochs]
    when [records_per_epoch] is an integer and [global_batch_size > 0].  So
    10 records in batches of 4 are 2 batches, and 2 epochs of 100 records in
    batches of 10 are 20 batches. *)
Theorem as_batches_conversion s :
  (forall b, as_batches s (Some b) None None = Ok b) /\
  (0 < global_batch_size s ->
   forall r, as_batches s None (Some r) None
             = Ok (Z.max (r / global_batch_size s) 1)) /\
  (0 < global_batch_size s ->
   forall rpe, records_per_epoch s = Some rpe ->
   forall e, as_batches s None None (Some e)
             = Ok (Z.max ((e * rpe) / global_batch_size s) 1)) /\
  (global_batch_size s = 4 -> as_batches s None (Some 10) None = Ok 2) /\
  (records_per_epoch s = Some 100 -> global_batch_size s = 10 ->
   as_batches s None None (Some 2) = Ok 20).
Proof.
  unfold as_batches. simpl. repeat split.
  - intros Hg r. by rewrite (proj2 (Z.ltb_lt _ _) Hg).
  - intros Hg rpe -> e. by rewrite (proj2 (Z.ltb_lt _ _) Hg).
  - by intros ->.
  - by intros -> ->.
Qed.

(** ** Saving and restoring the state (C8) *)

(** C8: [load_state] of the snapshot that [get_state] gave for a state of
    the same trial restores that very state, except that [last_val] is set
    to [latest_batch] exactly when [latest_batch] is the batch of the last
    validation known from the previous run, and leaves the rest of the
    sequencer alone; [load_state] of a snapshot of another trial, or of one
    without a trial id, changes nothing. *)
Theorem load_state_round_trip s other :
  (trial_id (state other) = _trial_id s ->
   (Some (latest_batch (state other)) = val_from_previous_run s ->
    load_state (get_state other) s
    = set_state (with_last_val (latest_batch (state other)) (state other)) s) /\
   (Some (latest_batch (state other)) <> val_from_previous_run s ->
    load_state (get_state other) s = set_state (state other) s)) /\
  (forall snap, snap_trial_id snap <> Some (_trial_id s) ->
                load_state snap s = s).
Proof.
  split.
  - intros Htid. unfold load_state, get_state. simpl.
    rewrite Htid, Z.eqb_refl. simpl.
    assert (SavableState_init (_trial_id s) (vars (state other)) = state other)
      as ->.
    { rewrite <- Htid. by destruct (state other). }
    split; intros Hv.
    + by rewrite bool_decide_eq_true_2.
    + by rewrite bool_decide_eq_false_2.
  - intros snap Hsnap. unfold load_state.
    destruct (snap_trial_id snap) as [tid|]; [|done].
    destruct (Z.eqb_spec tid (_trial_id s)); [congruence|done].
Qed.

(** ** Periods that are switched off (C10) *)

Lemma as_batches_set_periods v c s b r e :
  as_batches (set_periods v c s) b r e = as_batches s b r e.
Proof. done. Qed.

(** C10, as amended: when the configured minimum validation period, or
    minimum checkpoint period, converts to fewer than 1 batch, [__init__]
    replaces it by [sys.maxsize], and keeps it otherwise, so that both
    periods are at least 1; with the period [sys.maxsize] the validation,
    or the checkpoint, is due on its own exactly when [sys.maxsize] or more
    batches were trained since the last one, and not before. *)
Theorem periods_switched_off env s :
  init env = Ok s ->
  exists v c,
    as_batches_spec s (min_validation_period env) = Ok v /\
    as_batches_spec s (min_checkpoint_period env) = Ok c /\
    min_val_period_batches s = (if v <? 1 then sys_maxsize else v) /\
    min_ckpt_period_batches s = (if c <? 1 then sys_maxsize else c) /\
    1 <= min_val_period_batches s /\
    1 <= min_ckpt_period_batches s /\
    (v < 1 -> forall st,
       batches_until_val (set_state st s) < 1 <->
       sys_maxsize <= latest_batch st - last_val st) /\
    (c < 1 -> forall st,
       batches_until_ckpt (set_state st s) < 1 <->
       sys_maxsize <= latest_batch st - last_ckpt st).
Proof.
  unfold init. intros H.
  destruct (as_batches_spec _ (min_validation_period env)) as [v|] eqn:Hv;
    [|done].
  destruct (as_batches_spec _ (min_checkpoint_period env)) as [c|] eqn:Hc;
    [|done].
  simplify_eq. exists v, c.
  unfold as_batches_spec in *. rewrite !as_batches_set_periods.
  split; [done|]. split; [done|]. split; [done|]. split; [done|].
  unfold batches_until_val, batches_until_ckpt, sys_maxsize. simpl.
  split; [destruct (Z.ltb_spec v 1); lia|].
  split; [destruct (Z.ltb_spec c 1); lia|].
  split; intros Hlt st.
  - rewrite (proj2 (Z.ltb_lt _ _) Hlt). lia.
  - rewrite (proj2 (Z.ltb_lt _ _) Hlt). lia.
Qed.

(** ** The state after a training step and after a validation *)

Lemma train_state n op w r w' :
  train n op w = (r, w') ->
  (state (self w') = state (self w) /\ r <> Returns tt) \/
  (exists num_inputs,
     state (self w') = train_update n num_inputs (state (self w))).
Proof.
  unfold train. intros H. run_inv'.
  all: cbn [self state set_state]; first [by left | right; by eexists].
Qed.

(** ** An induction principle for the runs of the generator

    A relation between worlds that is reflexive and transitive, and that
    every validation, every checkpoint and every iteration of the [while]
    loop respect, holds between the start and the end of every piece of the
    generator. *)

Lemma training_loop_body fuel op w rem :
  batches_until_op_complete (self w) op = Ok rem -> 0 < rem ->
  training_loop (S fuel) op w = (iteration op;; training_loop fuel op)%gen w.
Proof.
  intros Hrem Hpos. rewrite (training_loop_iteration _ _ _ _ Hrem Hpos).
  unfold iteration, bind.
  destruct (pause_to_validate op w) as [[[]|e|] w1]; [|done..].
  by destruct (pause_to_checkpoint w1) as [[[]|e|] w2].
Qed.

Lemma training_loop_done fuel op w r w' :
  training_loop fuel op w = (r, w') ->
  (forall rem, batches_until_op_complete (self w) op = Ok rem ->
               0 < rem -> fuel = O) ->
  w' = w.
Proof.
  rewrite training_loop_unfold. intros H Hdone. run_inv; try done.
  all: match goal with
  | Hb : (0 <? _) = true, Hr : batches_until_op_complete _ _ = _ |- _ =>
      apply Z.ltb_lt in Hb; by specialize (Hdone _ Hr Hb)
  end.
Qed.

Section Iterations.

Variable R : @World metric -> @World metric -> Prop.
Hypothesis R_refl : forall w, R w w.
Hypothesis R_trans : forall w1 w2 w3, R w1 w2 -> R w2 w3 -> R w1 w3.
Hypothesis R_validate : forall oo w r w', validate oo w = (r, w') -> R w w'.
Hypothesis R_checkpoint : forall b w r w', checkpoint b w = (r, w') -> R w w'.
Hypothesis R_iteration :
  forall op w r w' rem,
    batches_until_op_complete (self w) op = Ok rem -> 0 < rem ->
    iteration op w = (r, w') -> R w w'.

Ltac steps_tac :=
  repeat match goal with
         | H : validate _ _ = _ |- _ => apply R_validate in H
         | H : checkpoint _ _ = _ |- _ => apply R_checkpoint in H
         end;
  eauto.

Lemma training_loop_steps fuel op w r w' :
  training_loop fuel op w = (r, w') -> R w w'.
Proof.
  revert w r w'. induction fuel as [|fuel IH]; intros w r w' H.
  { apply training_loop_done in H as ->; done. }
  destruct (batches_until_op_complete (self w) op) as [rem|e] eqn:Hrem.
  2: { apply training_loop_done in H as ->; [done|]. intros ? ?. congruence. }
  destruct (Z.ltb_spec 0 rem) as [Hpos|Hle].
  2: { apply training_loop_done in H as ->; [done|].
       intros rem' Hrem' ?. rewrite Hrem in Hrem'. simplify_eq. lia. }
  rewrite (training_loop_body _ _ _ _ Hrem Hpos) in H.
  apply bind_run in H as [(a & w1 & H1 & H2)|[(e & H1 & _)|(H1 & _)]].
  - eapply R_trans; [by eapply R_iteration|by eapply IH].
  - by eapply R_iteration.
  - by eapply R_iteration.
Qed.

Lemma finish_op_steps op w r w' : finish_op op w = (r, w') -> R w w'.
Proof. unfold finish_op. intros H. run_inv; steps_tac. Qed.

Lemma run_op_steps op w r w' : run_op op w = (r, w') -> R w w'.
Proof.
  unfold run_op. intros H. run_inv.
  all: repeat match goal with
       | H : training_loop _ _ _ = _ |- _ => apply training_loop_steps in H
       | H : finish_op _ _ = _ |- _ => apply finish_op_steps in H
       end.
  all: eauto.
Qed.

Lemma for_ops_steps ops w r w' : for_ops ops w = (r, w') -> R w w'.
Proof.
  revert w r w'. induction ops as [|op ops IH]; intros w r w' H; simpl in H;
    run_inv; try done.
  all: repeat match goal with
       | H : run_op _ _ = _ |- _ => apply run_op_steps in H
       | H : for_ops _ _ = _ |- _ => apply IH in H
       end.
  all: eauto.
Qed.

Lemma initial_validation_steps w r w' :
  initial_validation w = (r, w') -> R w w'.
Proof. unfold initial_validation. intros H. run_inv; steps_tac. Qed.

Lemma on_should_exit_steps w r w' : on_should_exit w = (r, w') -> R w w'.
Proof. unfold on_should_exit. intros H. run_inv; steps_tac. Qed.

(** The body of the [try] statement of [__iter__] with its handler. *)
Lemma guarded_body_iterations ops w r w' :
  try_except_ShouldExit (initial_validation;; for_ops ops)%gen on_should_exit w
  = (r, w') ->
  R w w'.
Proof.
  intros H.
  assert (forall r1 w1, (initial_validation;; for_ops ops)%gen w = (r1, w1) ->
                        R w w1) as Hbody.
  { intros r1 w1 H1. run_inv.
    all: repeat match goal with
         | H : initial_validation _ = _ |- _ => apply initial_validation_steps in H
         | H : for_ops _ _ = _ |- _ => apply for_ops_steps in H
         end.
    all: eauto. }
  apply try_except_ShouldExit_run in H as [(w1 & H1 & H2)|[H1 _]].
  - apply Hbody in H1. apply on_should_exit_steps in H2. eauto.
  - by eapply Hbody.
Qed.

Hypothesis R_emit :
  forall e w, yields [e] = [] -> no_completion [e] -> R w (snd (emit e w)).

Lemma iter_iterations ops w r w' : iter ops w = (r, w') -> R w w'.
Proof.
  intros H.
  unfold iter in H. apply bind_run in H as [(a & w1 & He & H)|[H|H]].
  2: { destruct H as (e & H & _). unfold emit in H. simplify_eq. }
  2: { destruct H as [H _]. unfold emit in H. simplify_eq. }
  apply try_finally_run in H as (w2 & H & ->).
  apply guarded_body_iterations in H.
  eapply R_trans; [|eapply R_trans; [exact H|]].
  - replace w1 with (snd (emit EPreemptionStart w)) by by rewrite He.
    apply R_emit; [done|]. by intros o.
  - apply R_emit; [done|]. by intros o.
Qed.

End Iterations.

(** The same for a relation that every training step of at least one batch
    respects. *)

Section Steps.

Variable R : @World metric -> @World metric -> Prop.
Hypothesis R_refl : forall w, R w w.
Hypothesis R_trans : forall w1 w2 w3, R w1 w2 -> R w2 w3 -> R w1 w3.
Hypothesis R_train :
  forall n op w r w', 1 <= n -> train n op w = (r, w') -> R w w'.
Hypothesis R_validate : forall oo w r w', validate oo w = (r, w') -> R w w'.
Hypothesis R_checkpoint : forall b w r w', checkpoint b w = (r, w') -> R w w'.

Ltac steps_tac :=
  repeat match goal with
         | H : train _ _ _ = _ |- _ => apply R_train in H; [|done]
         | H : validate _ _ = _ |- _ => apply R_validate in H
         | H : checkpoint _ _ = _ |- _ => apply R_checkpoint in H
         end;
  eauto.

Lemma pause_to_validate_steps op w r w' :
  pause_to_validate op w = (r, w') -> R w w'.
Proof. unfold pause_to_validate. intros H. run_inv; steps_tac. Qed.

Lemma pause_to_checkpoint_steps w r w' :
  pause_to_checkpoint w = (r, w') -> R w w'.
Proof. unfold pause_to_checkpoint. intros H. run_inv; steps_tac. Qed.

Lemma do_some_training_steps op w r w' :
  do_some_training op w = (r, w') -> R w w'.
Proof.
  unfold do_some_training. intros H. run_inv; [|done].
  match goal with
  | Hn : next_num_batches _ _ = Ok _ |- _ => apply next_num_batches_pos in Hn
  end.
  steps_tac.
Qed.

Lemma iteration_steps op w r w' : iteration op w = (r, w') -> R w w'.
Proof.
  unfold iteration. intros H. run_inv.
  all: repeat match goal with
       | H : pause_to_validate _ _ = _ |- _ => apply pause_to_validate_steps in H
       | H : pause_to_checkpoint _ = _ |- _ => apply pause_to_checkpoint_steps in H
       | H : do_some_training _ _ = _ |- _ => apply do_some_training_steps in H
       end.
  all: eauto 6.
Qed.

Lemma guarded_body_steps ops w r w' :
  try_except_ShouldExit (initial_validation;; for_ops ops)%gen on_should_exit w
  = (r, w') ->
  R w w'.
Proof.
  apply (guarded_body_iterations R R_refl R_trans R_validate R_checkpoint).
  intros op w0 r0 w0' rem _ _. apply iteration_steps.
Qed.

End Steps.

Ltac policy_facts :=
  unfold checkpoint_is_current, validation_is_current in *;
  cbn [self state set_state with_last_val with_last_ckpt last_ckpt last_val
       latest_batch ckpt_policy] in *;
  repeat match goal with
         | H : negb _ = true |- _ => apply negb_true_iff in H
         | H : negb _ = false |- _ => apply negb_false_iff in H
         | H : _ && _ = true |- _ => apply andb_true_iff in H as [? ?]
         | H : String.eqb _ _ = true |- _ => apply String.eqb_eq in H
         | H : String.eqb _ _ = false |- _ => apply String.eqb_neq in H
         end.

Lemma validate_outcome oo w r w' :
  validate oo w = (r, w') ->
  exists d,
    advances w w'
      (ESetStatus "validating"
       :: EYield (make_workload Workload.COMPUTE_VALIDATION_METRICS (self w)
                    (step_id (state (self w))) 0) :: d) /\
    ((state (self w') = state (self w) /\ yields d = [] /\ r <> Returns tt) \/
     (state (self w') = with_last_val (latest w) (state (self w)) /\
      yields d = [] /\
      (r = Returns tt -> ckpt_policy (self w) = policy_all ->
       checkpoint_is_current (self w) = true)) \/
     (state (self w')
      = with_last_ckpt (latest w) (with_last_val (latest w) (state (self w))) /\
      yields d = [make_workload Workload.CHECKPOINT_MODEL (self w)
                    (step_id (state (self w))) 0] /\
      checkpoint_is_current (self w) = false /\
      (ckpt_policy (self w) = policy_all \/ ckpt_policy (self w) = policy_best))).
Proof.
  unfold validate. intros H. run_inv'.
  all: repeat match goal with
       | H : checkpoint _ _ = (_, _) |- _ =>
           apply checkpoint_run in H; destruct H as (? & ? & ? & ? & ? & ?)
       end.
  all: eexists; split; [adv_chain|].
  all: unfold latest in *; cbn [io self completed trace state] in *.
  all: repeat match goal with
       | H : state (self _) = _ |- _ => rewrite H; clear H
       end.
  all: simpl yields; rewrite ?yields_app; simpl yields.
  all: repeat match goal with H : yields _ = [] |- _ => rewrite H; clear H end.
  all: policy_facts.
  all: first
         [ left; by repeat split
         | right; left; split; [reflexivity|]; split; [reflexivity|];
           intros ? ?; by simplify_eq
         | right; right; split; [reflexivity|]; split; [reflexivity|];
           split; [done|]; by auto ].
Qed.

Lemma iter_steps (R : @World metric -> @World metric -> Prop) :
  (forall w, R w w) ->
  (forall w1 w2 w3, R w1 w2 -> R w2 w3 -> R w1 w3) ->
  (forall n op w r w', 1 <= n -> train n op w = (r, w') -> R w w') ->
  (forall oo w r w', validate oo w = (r, w') -> R w w') ->
  (forall b w r w', checkpoint b w = (r, w') -> R w w') ->
  (forall e w, yields [e] = [] -> no_completion [e] -> R w (snd (emit e w))) ->
  forall ops w r w', iter ops w = (r, w') -> R w w'.
Proof.
  intros Hrefl Htrans Htrain Hval Hckpt Hemit ops w r w' H.
  unfold iter in H. apply bind_run in H as [(a & w1 & He & H)|[H|H]].
  2: { destruct H as (e & H & _). unfold emit in H. simplify_eq. }
  2: { destruct H as [H _]. unfold emit in H. simplify_eq. }
  apply try_finally_run in H as (w2 & H & ->).
  apply (guarded_body_steps R Hrefl Htrans Htrain Hval Hckpt) in H.
  eapply Htrans; [|eapply Htrans; [exact H|]].
  - replace w1 with (snd (emit EPreemptionStart w)) by by rewrite He.
    apply Hemit; [done|]. by intros o.
  - apply Hemit; [done|]. by intros o.
Qed.

(** ** The counters over a run *)

Lemma state_evolves_refl st : state_evolves st st.
Proof. unfold state_evolves. repeat split; try done; lia. Qed.

Lemma state_evolves_trans st1 st2 st3 :
  state_evolves st1 st2 -> state_evolves st2 st3 -> state_evolves st1 st3.
Proof.
  unfold state_evolves. intros (? & ? & ? & ?) (? & ? & ? & ?).
  repeat split; try congruence; try lia. auto.
Qed.

Lemma evolves_refl w : evolves w w.
Proof. split; [by rewrite set_state_id|apply state_evolves_refl]. Qed.

Lemma evolves_trans w1 w2 w3 : evolves w1 w2 -> evolves w2 w3 -> evolves w1 w3.
Proof.
  intros [Hc1 H1] [Hc2 H2]. split; [|by eapply state_evolves_trans].
  rewrite Hc2 at 1. by rewrite Hc1.
Qed.

Lemma train_evolves n op w r w' :
  1 <= n -> train n op w = (r, w') -> evolves w w'.
Proof.
  intros Hn H. pose proof H as Hst. apply train_state in Hst.
  apply train_run in H as (d & Hadv & _); [|lia].
  split; [by apply (adv_config _ _ _ Hadv)|].
  destruct Hst as [[-> _] | (ni & ->)]; [apply state_evolves_refl|].
  unfold state_evolves, train_update. simpl.
  repeat split; try lia. intros ->. by destruct ni.
Qed.

Lemma validate_evolves oo w r w' : validate oo w = (r, w') -> evolves w w'.
Proof.
  intros H. apply validate_outcome in H as (d & Hadv & Hst).
  split; [by apply (adv_config _ _ _ Hadv)|].
  destruct Hst as [(-> & _) | [(-> & _) | (-> & _)]];
    unfold state_evolves; simpl; repeat split; try done; lia.
Qed.

Lemma checkpoint_evolves b w r w' : checkpoint b w = (r, w') -> evolves w w'.
Proof.
  intros H. apply checkpoint_run in H as (d & Hadv & _ & _ & _ & Hst).
  split; [by apply (adv_config _ _ _ Hadv)|].
  rewrite Hst. unfold state_evolves. simpl. repeat split; try done; lia.
Qed.

(** X1: whatever a run of the generator, or a single training step,
    validation or checkpoint does, the sequencer keeps the configuration
    that [__init__] computed and the trial id of its state; [step_id] never
    goes down and grows by at most the number of batches trained; and once
    [total_records] is unknown ([None]) it stays unknown. *)
Theorem counters_evolve w w' :
  operation_step w w' ->
  self w' = set_state (state (self w')) (self w) /\
  trial_id (state (self w')) = trial_id (state (self w)) /\
  step_id (state (self w)) <= step_id (state (self w')) /\
  step_id (state (self w')) - step_id (state (self w))
    <= latest_batch (state (self w')) - latest_batch (state (self w)) /\
  (total_records (state (self w)) = None ->
   total_records (state (self w')) = None).
Proof.
  intros Hstep.
  assert (evolves w w') as [Hc (? & ? & ? & ?)]; [|done].
  destruct Hstep as [op w0 | oo w0 | b w0 | ops w0].
  - destruct (do_some_training op w0) as [r w1] eqn:H.
    eapply (do_some_training_steps evolves); [..|exact H];
      first [ apply evolves_refl | apply evolves_trans
            | intros; by eapply train_evolves ].
  - destruct (validate oo w0) as [r w1] eqn:H. by eapply validate_evolves.
  - destruct (checkpoint b w0) as [r w1] eqn:H. by eapply checkpoint_evolves.
  - destruct (iter ops w0) as [r w1] eqn:H.
    eapply (iter_steps evolves); [apply evolves_refl|apply evolves_trans| | | | |exact H].
    + intros. by eapply train_evolves.
    + intros. by eapply validate_evolves.
    + intros. by eapply checkpoint_evolves.
    + intros e w1' _ _. split; simpl; [by rewrite set_state_id|apply state_evolves_refl].
Qed.

(** ** The end of the generator *)

Lemma on_should_exit_ends w r w' :
  on_should_exit w = (r, w') -> r <> Raises ShouldExit.
Proof. intros H. by apply on_should_exit_yields in H as (? & _). Qed.

Lemma generator_bounded ops w :
  fst (iter ops w) <> OutOfFuel /\ fst (iter ops w) <> Raises ShouldExit.
Proof.
  destruct (iter ops w) as [r w'] eqn:H. simpl. split.
  - by apply iter_run in H as (d & _ & Hr).
  - unfold iter in H. apply bind_run in H as [(a & w1 & He & H)|[H|H]].
    2: { destruct H as (e & H & _). unfold emit in H. simplify_eq. }
    2: { destruct H as [H _]. unfold emit in H. simplify_eq. }
    apply try_finally_run in H as (w2 & H & _).
    apply try_except_ShouldExit_run in H as [(w3 & _ & Hh) | [_ Hne]]; [|done].
    by eapply on_should_exit_ends.
Qed.

(** X2: every run of the generator comes to an end: the [while] loop of an
    operation never needs more iterations than there are batches left to
    its target; and the exception [ShouldExit] never leaves [__iter__],
    which ends by returning or by another exception. *)
Theorem generator_ends ops w :
  fst (iter ops w) <> OutOfFuel /\ fst (iter ops w) <> Raises ShouldExit.
Proof. apply generator_bounded. Qed.

(** X3: the first thing the generator does is to start the preemption
    watcher, and the last thing it does is to close it, whatever its
    outcome, exceptions included. *)
Theorem preemption_watcher_closed ops w :
  exists d,
    trace (snd (iter ops w))
    = trace w ++ [EPreemptionStart] ++ d ++ [EPreemptionClose].
Proof.
  destruct (iter ops w) as [r w'] eqn:H. simpl.
  unfold iter in H. apply bind_run in H as [(a & w1 & He & H)|[H|H]].
  2: { destruct H as (e & H & _). unfold emit in H. simplify_eq. }
  2: { destruct H as [H _]. unfold emit in H. simplify_eq. }
  apply try_finally_run in H as (w2 & H & ->).
  assert (starts_with [] w1 w2) as (d & Hd).
  { eapply (guarded_body_steps (starts_with [])); [| | | | |exact H].
    - intros w0. exists []. by rewrite app_nil_r.
    - intros. by eapply starts_with_nil_trans.
    - intros n op w0 r0 w0' Hn H0.
      apply train_proceeds in H0 as (d & Hp & _); [|done].
      by eapply proceeds_starts_with.
    - intros oo w0 r0 w0' H0. apply validate_proceeds in H0 as (d & Hp & _).
      by eapply proceeds_starts_with.
    - intros b w0 r0 w0' H0. apply checkpoint_proceeds in H0 as (d & Hp & _).
      by eapply proceeds_starts_with. }
  exists d. unfold emit in He. simplify_eq. simpl. rewrite Hd. simpl.
  by rewrite <- !app_assoc.
Qed.

(** ** The target of an operation *)

Lemma do_some_training_bound op w r w' t :
  do_some_training op w = (r, w') ->
  op_target (self w) op = Ok t -> latest w < t -> latest w' <= t.
Proof.
  unfold do_some_training. intros H Ht Hlt. run_inv; [|lia].
  match goal with
  | Hn : next_num_batches _ _ = Ok _ |- _ =>
      unfold next_num_batches, batches_until_op_complete in Hn;
      rewrite Ht in Hn; simplify_eq
  end.
  apply train_state in H as [[Hst _] | (ni & Hst)];
    unfold latest in *; rewrite Hst; [lia|].
  unfold train_update. simpl. lia.
Qed.

Lemma proceeds_op_target w w' d op :
  proceeds w w' d -> op_target (self w') op = op_target (self w) op.
Proof. intros [Hadv _]. by eapply advances_op_target. Qed.

Lemma training_loop_target fuel op w r w' t :
  training_loop fuel op w = (r, w') ->
  op_target (self w) op = Ok t ->
  latest w' <= Z.max (latest w) t /\
  (r = Returns tt -> latest w' = Z.max (latest w) t).
Proof.
  revert w r w'.
  induction fuel as [|fuel IH]; intros w r w'; rewrite training_loop_unfold;
    intros H Ht; run_inv.
  all: repeat match goal with
       | Hb : (0 <? _) = true |- _ => apply Z.ltb_lt in Hb
       | Hb : (0 <? _) = false |- _ => apply Z.ltb_ge in Hb
       | Hr : batches_until_op_complete _ _ = _ |- _ =>
           unfold batches_until_op_complete in Hr; rewrite Ht in Hr;
           simplify_eq
       end.
  all: try (split; [lia|intros; first [done|lia]]).
  all: repeat match goal with
       | H : pause_to_validate _ ?w0 = _, Ht0 : op_target (self ?w0) _ = _ |- _ =>
           eapply pause_to_validate_run in H as (? & H & _ & _ & ?);
           [apply (proceeds_op_target _ _ _ op) in H; rewrite Ht0 in H
           |unfold batches_until_op_complete; by rewrite Ht0
           |unfold latest in *; lia]
       | H : pause_to_checkpoint ?w0 = _, Ht0 : op_target (self ?w0) _ = _ |- _ =>
           apply pause_to_checkpoint_run in H as (? & H & _ & _ & ?);
           apply (proceeds_op_target _ _ _ op) in H; rewrite Ht0 in H
       | H : do_some_training _ ?w0 = _, Ht0 : op_target (self ?w0) _ = _ |- _ =>
           pose proof (do_some_training_bound _ _ _ _ _ H Ht0);
           apply do_some_training_run in H as (? & H & _ & _ & ?);
           pose proof (advances_latest _ _ _ (proj1 H));
           apply (proceeds_op_target _ _ _ op) in H; rewrite Ht0 in H
       | H : training_loop _ _ ?w0 = _, Ht0 : op_target (self ?w0) _ = _ |- _ =>
           apply IH in H as [? ?]; [|exact Ht0]
       end.
  all: unfold latest in *.
  all: split; [lia|intros Hr; try done].
  all: repeat match goal with
       | H : ?P -> _, Hp : ?P |- _ => specialize (H Hp)
       end.
  all: lia.
Qed.

Lemma finish_op_saved op w w' :
  finish_op op w = (Returns tt, w') ->
  checkpoint_is_current (self w') = true /\
  validation_is_current (self w') = true /\
  latest w' = latest w.
Proof.
  unfold finish_op. intros H. run_inv.
  all: repeat match goal with x : unit |- _ => destruct x end.
  all: repeat match goal with
       | H : checkpoint _ _ = _ |- _ =>
           apply checkpoint_run in H as (? & _ & _ & _ & _ & H)
       | H : validate _ _ = _ |- _ =>
           apply validate_outcome in H as (? & _ & [(_ & _ & H)|[(H & _)|(H & _)]]);
           [done| |]
       end.
  all: unfold latest in *; policy_facts.
  all: repeat match goal with
       | H : state (self _) = _ |- _ => rewrite H in *; clear H
       end.
  all: cbn [with_last_val with_last_ckpt last_ckpt last_val latest_batch] in *.
  all: repeat split; first [done | by apply Z.eqb_refl | lia].
Qed.

Lemma finish_op_latest op w r w' :
  finish_op op w = (r, w') -> latest w' = latest w.
Proof.
  unfold finish_op. intros H. run_inv.
  all: repeat match goal with
       | H : checkpoint _ _ = _ |- _ =>
           apply checkpoint_proceeds in H as (? & _ & _ & _ & H)
       | H : validate _ _ = _ |- _ =>
           apply validate_proceeds in H as (? & _ & _ & H)
       end.
  all: congruence.
Qed.

(** X4: the loop of an operation never trains past the target of the
    operation: started at or below the target it ends at or below it,
    whatever its outcome, and when the body of the operation returns,
    [latest_batch] is the target exactly. *)
Theorem training_stops_at_target op w r w' t :
  run_op op w = (r, w') ->
  op_target (self w) op = Ok t ->
  latest w <= t ->
  latest w' <= t /\ (r = Returns tt -> latest w' = t).
Proof.
  unfold run_op. intros H Ht Hle. run_inv.
  all: repeat match goal with
       | H : training_loop _ _ _ = _ |- _ =>
           apply training_loop_target with (t := t) in H as [? ?]; [|done]
       | H : finish_op _ _ = _ |- _ => apply finish_op_latest in H
       end.
  all: repeat match goal with x : unit |- _ => destruct x end.
  all: split; [|intros Hr; try done].
  all: repeat match goal with
       | H : ?P -> _, Hp : ?P |- _ => specialize (H Hp)
       | H : Returns tt = Returns tt -> _ |- _ => specialize (H eq_refl)
       end.
  all: lia.
Qed.

Lemma run_op_nothing_to_do op w t :
  op_target (self w) op = Ok t -> t <= latest w ->
  checkpoint_is_current (self w) = true ->
  validation_is_current (self w) = true ->
  SearcherOp.op_id op ∉ completed w ->
  run_op op w =
  (Raises (AssertionError "logic error; op was never completed"), w).
Proof.
  intros Ht Hle Hc Hv Hf. unfold run_op.
  unfold bind at 1. rewrite training_loop_unfold.
  unfold bind at 1, get_self. unfold bind at 1, lift.
  unfold batches_until_op_complete. rewrite Ht.
  replace (0 <? t - latest_batch (state (self w))) with false
    by (symmetry; apply Z.ltb_ge; unfold latest in Hle; lia).
  unfold ret. by apply finish_op_nothing_to_do.
Qed.

(** X5: when the body of an operation returns, so that the generator goes
    on to the next operation, nothing is left to save: the checkpoint and
    the validation are both current, [complete] was called on the
    operation, and the final checks trained nothing. *)
Theorem operation_ends_saved op w w' :
  run_op op w = (Returns tt, w') ->
  last_ckpt (state (self w')) = latest_batch (state (self w')) /\
  last_val (state (self w')) = latest_batch (state (self w')) /\
  SearcherOp.op_id op ∈ completed w'.
Proof.
  unfold run_op. intros H. run_inv.
  match goal with
  | H : finish_op _ _ = _ |- _ =>
      pose proof (finish_op_returns _ _ _ _ H eq_refl);
      apply finish_op_saved in H as (Hc & Hv & _)
  end.
  policy_facts. repeat split; [by apply Z.eqb_eq..|done].
Qed.

(** X6: an operation that asks for no more batches than the operation
    before it has trained cannot be completed: after the body of an
    operation has returned, the body of a following operation whose target
    is not above [latest_batch] yields nothing, reports nothing and fails
    the assertion "logic error; op was never completed". *)
Theorem repeated_target_fails op op' w w' t :
  run_op op w = (Returns tt, w') ->
  op_target (self w') op' = Ok t -> t <= latest w' ->
  SearcherOp.op_id op' ∉ completed w' ->
  run_op op' w' =
  (Raises (AssertionError "logic error; op was never completed"), w').
Proof.
  intros H Ht Hle Hf.
  unfold run_op in H. run_inv.
  match goal with
  | H : finish_op _ _ = _ |- _ => apply finish_op_saved in H as (Hc & Hv & _)
  end.
  by eapply run_op_nothing_to_do.
Qed.

(** ** The pace of validations and checkpoints *)

Lemma advances_periods w w' d :
  advances w w' d ->
  min_val_period_batches (self w') = min_val_period_batches (self w) /\
  min_ckpt_period_batches (self w') = min_ckpt_period_batches (self w) /\
  scheduling_unit (self w') = scheduling_unit (self w).
Proof. intros Hadv. by rewrite (adv_config _ _ _ Hadv). Qed.

Lemma validate_counters oo w r w' :
  validate oo w = (r, w') ->
  (min_val_period_batches (self w') = min_val_period_batches (self w) /\
   min_ckpt_period_batches (self w') = min_ckpt_period_batches (self w) /\
   scheduling_unit (self w') = scheduling_unit (self w)) /\
  latest_batch (state (self w')) = latest_batch (state (self w)) /\
  (last_val (state (self w')) = last_val (state (self w)) \/
   last_val (state (self w')) = latest_batch (state (self w))) /\
  (last_ckpt (state (self w')) = last_ckpt (state (self w)) \/
   last_ckpt (state (self w')) = latest_batch (state (self w))) /\
  (r = Returns tt ->
   last_val (state (self w')) = latest_batch (state (self w))).
Proof.
  intros H. apply validate_outcome in H as (d & Hadv & Hst).
  split; [by eapply advances_periods|].
  unfold latest in Hst.
  destruct Hst as [(-> & _ & ?) | [(-> & _) | (-> & _)]]; simpl; auto.
  repeat split; auto. intros ->. done.
Qed.

Lemma checkpoint_counters b w r w' :
  checkpoint b w = (r, w') ->
  (min_val_period_batches (self w') = min_val_period_batches (self w) /\
   min_ckpt_period_batches (self w') = min_ckpt_period_batches (self w) /\
   scheduling_unit (self w') = scheduling_unit (self w)) /\
  latest_batch (state (self w')) = latest_batch (state (self w)) /\
  last_val (state (self w')) = last_val (state (self w)) /\
  last_ckpt (state (self w')) = latest_batch (state (self w)).
Proof.
  intros H. apply checkpoint_run in H as (d & Hadv & _ & _ & _ & Hst).
  split; [by eapply advances_periods|]. by rewrite Hst.
Qed.

Lemma train_counters n op w r w' :
  train n op w = (r, w') -> 0 <= n ->
  (min_val_period_batches (self w') = min_val_period_batches (self w) /\
   min_ckpt_period_batches (self w') = min_ckpt_period_batches (self w) /\
   scheduling_unit (self w') = scheduling_unit (self w)) /\
  (latest_batch (state (self w')) = latest_batch (state (self w)) \/
   latest_batch (state (self w')) = latest_batch (state (self w)) + n) /\
  last_val (state (self w')) = last_val (state (self w)) /\
  last_ckpt (state (self w')) = last_ckpt (state (self w)).
Proof.
  intros H Hn. pose proof H as Hst. apply train_state in Hst.
  apply train_run in H as (d & Hadv & _); [|done].
  split; [by eapply advances_periods|].
  destruct Hst as [[-> _] | (ni & ->)]; simpl; auto.
Qed.

Ltac counters_facts :=
  repeat match goal with x : unit |- _ => destruct x end;
  repeat match goal with
         | H : validate _ _ = _ |- _ =>
             apply validate_counters in H as ((? & ? & ?) & ? & ? & ? & ?)
         | H : checkpoint _ _ = _ |- _ =>
             apply checkpoint_counters in H as ((? & ? & ?) & ? & ? & ?)
         | H : next_num_batches _ _ = Ok _ |- _ =>
             pose proof (next_num_batches_pos _ _ _ H);
             unfold next_num_batches in H
         | H : match batches_until_op_complete ?s ?op with _ => _ end = _ |- _ =>
             destruct (batches_until_op_complete s op) eqn:?; simplify_eq
         | H : train _ _ _ = _ |- _ =>
             apply train_counters in H as ((? & ? & ?) & ? & ? & ?); [|lia]
         | H : (_ <? _) = true |- _ => apply Z.ltb_lt in H
         | H : (_ <? _) = false |- _ => apply Z.ltb_ge in H
         | H : Returns tt = Returns tt -> _ |- _ => specialize (H eq_refl)
         end.

Lemma iteration_pace op w r w' rem :
  batches_until_op_complete (self w) op = Ok rem -> 0 < rem ->
  iteration op w = (r, w') ->
  keeps_pace (self w) -> keeps_pace (self w').
Proof.
  unfold iteration, pause_to_validate, pause_to_checkpoint, do_some_training.
  intros Hrem Hpos H Hp. run_inv.
  all: counters_facts.
  all: unfold keeps_pace, batches_until_val, batches_until_ckpt in *.
  all: lia.
Qed.

(** X7: the generator keeps the pace of its two periods.  When both
    periods are at least one batch and the trial starts with no more
    batches since its last validation than the validation period, and no
    more since its last checkpoint than the checkpoint period, then the
    same holds when the generator ends, whatever its outcome: no training
    step goes past the batch at which a validation or a checkpoint falls
    due. *)
Theorem pace_is_kept ops w r w' :
  iter ops w = (r, w') ->
  keeps_pace (self w) ->
  keeps_pace (self w').
Proof.
  intros H.
  pose (R := fun w w' : @World metric =>
               keeps_pace (self w) -> keeps_pace (self w')).
  change (R w w'). eapply (iter_iterations R); try exact H; unfold R.
  - auto.
  - auto.
  - intros oo w0 r0 w0' H0 Hp. counters_facts.
    unfold keeps_pace in *. lia.
  - intros b w0 r0 w0' H0 Hp. counters_facts.
    unfold keeps_pace in *. lia.
  - intros op w0 r0 w0' rem Hrem Hpos H0. by eapply iteration_pace.
  - by intros e w0 _ _.
Qed.

(** ** What a validation does about the checkpoint *)

Lemma respond_all_raises (rs : list (@Response metric)) out e :
  respond_all rs out = Raise e -> exists msg, e = AssertionError msg.
Proof.
  revert out. induction rs as [|[|m] rs IH]; intros out; simpl; try done.
  - intros ?; simplify_eq. eauto.
  - apply IH.
Qed.

Lemma as_batches_raises s b r e err :
  as_batches s b r e = Raise err ->
  (exists msg, err = ValueError msg) \/ (exists msg, err = CheckFailedError msg).
Proof.
  unfold as_batches. intros H.
  repeat case_match; simplify_eq; eauto.
Qed.

Lemma checkpoint_bound b w r w' :
  checkpoint b w = (r, w') -> r <> Raises UnboundLocalError.
Proof.
  unfold checkpoint. intros H. run_inv'; try done.
  all: intros ?; simplify_eq.
  all: repeat match goal with
       | H : respond_all _ _ = Raise _ |- _ =>
           apply respond_all_raises in H as (? & ?)
       | H : get_storage_metadata _ = Raise _ |- _ =>
           unfold get_storage_metadata in H; repeat case_match
       end.
  all: simplify_eq.
Qed.

Lemma validate_bound oo w r w' :
  validate oo w = (r, w') -> r <> Raises UnboundLocalError.
Proof.
  unfold validate. intros H. run_inv'; try done.
  all: try match goal with
           | H : checkpoint _ _ = _ |- _ => by apply checkpoint_bound in H
           end.
  all: intros ?; simplify_eq.
  all: repeat match goal with
       | H : respond_all _ _ = Raise _ |- _ =>
           apply respond_all_raises in H as (? & ?)
       | H : get_validation_metrics _ = Raise _ |- _ =>
           unfold get_validation_metrics in H; repeat case_match
       | H : get_searcher_metric _ _ = Raise _ |- _ =>
           unfold get_searcher_metric in H; repeat case_match
       | H : batches_until_op_complete _ _ = Raise _ |- _ =>
           unfold batches_until_op_complete, op_target in H
       | H : match as_batches ?s ?a ?b ?c with _ => _ end = _ |- _ =>
           destruct (as_batches s a b c) eqn:?
       | H : as_batches _ _ _ _ = Raise _ |- _ =>
           apply as_batches_raises in H as [(? & ?)|(? & ?)]
       end.
  all: simplify_eq.
  all: policy_facts.
  all: match goal with
       | H : _ && _ = false, Hp : ckpt_policy _ = policy_best,
         Hc : (_ =? _) = false |- _ =>
           rewrite Hp, Hc in H; by vm_compute in H
       end.
Qed.

(** X8: a validation never reads [best_validation_before] unbound; it
    yields its validation workload and at most one checkpoint workload
    after it, and the checkpoint only when the checkpoint is not current
    and the policy is "all" or "best"; and when it returns, the validation
    is current, and under the policy "all" so is the checkpoint. *)
Theorem validation_checkpoint_policy oo w r w' :
  validate oo w = (r, w') ->
  r <> Raises UnboundLocalError /\
  (exists d,
     trace w' = trace w ++ d /\
     (yields d = [make_workload Workload.COMPUTE_VALIDATION_METRICS (self w)
                    (step_id (state (self w))) 0] \/
      yields d = [make_workload Workload.COMPUTE_VALIDATION_METRICS (self w)
                    (step_id (state (self w))) 0;
                  make_workload Workload.CHECKPOINT_MODEL (self w)
                    (step_id (state (self w))) 0] /\
      last_ckpt (state (self w)) <> latest_batch (state (self w)) /\
      (ckpt_policy (self w) = policy_all \/
       ckpt_policy (self w) = policy_best))) /\
  (r = Returns tt ->
   last_val (state (self w')) = latest_batch (state (self w')) /\
   (ckpt_policy (self w) = policy_all ->
    last_ckpt (state (self w')) = latest_batch (state (self w')))).
Proof.
  intros H. split; [by eapply validate_bound|].
  apply validate_outcome in H as (d & Hadv & Hst).
  unfold latest in Hst. split.
  - eexists. split; [by apply (adv_trace _ _ _ Hadv)|]. simpl.
    destruct Hst as [(_ & -> & _) | [(_ & -> & _) | (_ & -> & Hc & Hp)]];
      [by left..|].
    right. split; [done|]. split; [|done].
    unfold checkpoint_is_current in Hc. by apply Z.eqb_neq in Hc.
  - intros ->.
    destruct Hst as [(_ & _ & ?) | [(-> & _ & Hc) | (-> & _)]]; [done| |done].
    split; [done|]. intros Hp. specialize (Hc eq_refl Hp).
    unfold checkpoint_is_current in Hc. by apply Z.eqb_eq in Hc.
Qed.

(** ** A training step that is canceled by the user *)

Ltac same_response :=
  unfold consumer_calls, train_response in *;
  cbn [io self trace completed] in *; subst;
  rewrite <- ?app_assoc in *; cbn [app] in *;
  repeat match goal with
         | H1 : respond_all ?x None = _, H2 : respond_all ?x None = _ |- _ =>
             rewrite H1 in H2; simplify_eq
         end.

(** X9: when the response to a training workload has the exit reason
    [USER_CANCELED], the training step exits after reporting: the counters
    are advanced by the step, the training metrics and the progress are
    reported, the preemption is not polled, and the step ends with
    [ShouldExit]; after a step of at least one batch the checkpoint is then
    not current, so that the generator saves the step before it ends. *)
Theorem user_canceled_keeps_work n op w m num_inputs t r w' :
  train n op w = (r, w') ->
  train_response n w = Ok (Some m) ->
  exited_reason m = Some USER_CANCELED ->
  get_num_inputs m = Ok num_inputs ->
  op_target (self w) op = Ok t ->
  r = Raises ShouldExit /\
  state (self w') = train_update n num_inputs (state (self w)) /\
  (exists d p,
     trace w' =
     trace w ++ d ++
     [EReportTrainingMetrics (latest_batch (state (self w')))
        (total_records (state (self w')));
      EReportProgress (SearcherOp.op_id op) p] /\
     yields d = [make_workload Workload.RUN_STEP (self w)
                   (step_id (state (self w)) + 1) n]) /\
  (1 <= n -> counters_ok (state (self w)) ->
   checkpoint_is_current (self w') = false).
Proof.
  intros H Hrs Hm Hni Ht. unfold train in H. run_inv'.
  all: same_response.
  all: repeat match goal with
       | H : exited_with _ ?m0 = _, Hm0 : exited_reason ?m0 = _ |- _ =>
           unfold exited_with in H; rewrite Hm0 in H; vm_compute in H
       end; try done.
  all: repeat match goal with
       | H1 : get_num_inputs ?x = _, H2 : get_num_inputs ?x = _ |- _ =>
           rewrite H1 in H2; simplify_eq
       end.
  all: try match goal with
           | Hu : SearcherOp.unit ?op0 = SearcherOp.EPOCHS,
             Ht : op_target _ ?op0 = Ok _,
             Hr : as_batches _ _ _ _ = Raise _ |- _ =>
               unfold op_target, when_unit in Ht; rewrite Hu in Ht;
               unfold as_batches in Ht, Hr;
               cbn [set_state global_batch_size records_per_epoch] in Hr;
               congruence
           end.
  all: split; [done|]; split; [done|]; split;
    [eexists [_; _; _], _; split; reflexivity|].
  all: intros Hn [Hc _]; unfold checkpoint_is_current; simpl;
    apply Z.eqb_neq; lia.
Qed.

(** ** The exit reason of a checkpoint *)

(** X10: a checkpoint whose response carries the storage metadata is
    always reported, with [last_ckpt] set to [latest_batch].  When the
    generator is already exiting, that is all: the exit reason of the
    response is ignored and the preemption is not polled.  Otherwise an
    exit reason ends the checkpoint with [ShouldExit], after the report of
    the early exit if the reason is [INVALID_HP]; and without an exit
    reason the preemption is polled, and decides between [ShouldExit] and
    the normal return. *)
Theorem checkpoint_exit_reasons b w r w' m sm :
  checkpoint b w = (r, w') ->
  checkpoint_response w = Ok (Some m) ->
  get_storage_metadata m = Ok sm ->
  last_ckpt (state (self w')) = latest_batch (state (self w')) /\
  exists rs tail,
    trace w' =
    trace w ++
    [ESetStatus "checkpointing";
     EYield (make_workload Workload.CHECKPOINT_MODEL (self w)
               (step_id (state (self w))) 0);
     EResume rs;
     EReportCheckpoint sm (latest_batch (state (self w)))] ++ tail /\
    (b = true -> r = Returns tt /\ tail = []) /\
    (b = false -> exited_reason m = Some INVALID_HP ->
     r = Raises ShouldExit /\ tail = [EReportEarlyExit]) /\
    (b = false -> forall reason,
     exited_reason m = Some reason -> reason <> INVALID_HP ->
     r = Raises ShouldExit /\ tail = []) /\
    (b = false -> exited_reason m = None ->
     exists p, tail = [EShouldPreempt p] /\
               r = if p then Raises ShouldExit else Returns tt).
Proof.
  intros H Hrs Hsm. unfold checkpoint in H. run_inv'.
  all: unfold consumer_calls, checkpoint_response in *;
    cbn [io self trace completed] in *; subst;
    rewrite <- ?app_assoc in *; cbn [app] in *.
  all: unfold make_workload in *;
    cbn [set_state state with_last_ckpt latest_batch last_ckpt step_id
         _exp_id _trial_id] in *.
  all: repeat match goal with
       | H1 : respond_all ?x None = _, H2 : respond_all ?x None = _ |- _ =>
           rewrite H1 in H2; simplify_eq
       | H1 : get_storage_metadata ?x = _, H2 : get_storage_metadata ?x = _ |- _ =>
           rewrite H1 in H2; simplify_eq
       end.
  all: split; [done|]; eexists _, _; split; [reflexivity|].
  all: unfold exited_with, preemption_says in *.
  all: repeat split; try done.
  all: intros; simplify_eq.
  all: repeat match goal with
       | H1 : exited_reason ?x = _, H2 : context [exited_reason ?x] |- _ =>
           rewrite H1 in H2
       | H : String.eqb _ _ = true |- _ => apply String.eqb_eq in H
       | H : String.eqb _ _ = false |- _ => apply String.eqb_neq in H
       end.
  all: try done.
  all: by eexists.
Qed.

(** ** The batches of the training workloads *)

Lemma batches_of_app (a b : list Workload.t) :
  batches_of (a ++ b) = batches_of a + batches_of b.
Proof.
  induction a as [|wk a IH]; simpl; [done|].
  destruct (Workload.kind wk); lia.
Qed.

Lemma counted_refl w : counted true w w.
Proof. exists []. rewrite app_nil_r. simpl. repeat split; lia. Qed.

Lemma counted_trans f1 f2 w w1 w2 :
  counted f1 w w1 -> counted f2 w1 w2 -> counted (f1 && f2) w w2.
Proof.
  intros (d1 & Ht1 & Hl1 & Hf1) (d2 & Ht2 & Hl2 & Hf2). exists (d1 ++ d2).
  rewrite yields_app, batches_of_app, Ht2, Ht1, app_assoc.
  split; [done|]. split; [lia|].
  intros [-> ->]%andb_true_iff.
  specialize (Hf1 eq_refl). specialize (Hf2 eq_refl). lia.
Qed.

Lemma counted_weaken f w w' : counted f w w' -> counted false w w'.
Proof. intros (d & ? & ? & _). exists d. split; [done|]. by split. Qed.

Lemma validate_counted oo w r w' : validate oo w = (r, w') -> counted true w w'.
Proof.
  intros H. pose proof H as (_ & _ & _ & Hl)%validate_proceeds.
  apply validate_outcome in H as (d & Hadv & Hst).
  eexists. split; [by apply (adv_trace _ _ _ Hadv)|]. simpl.
  assert (batches_of (yields d) = 0) as ->.
  { by destruct Hst as [(_ & -> & _) | [(_ & -> & _) | (_ & -> & _)]]. }
  rewrite Hl. repeat split; lia.
Qed.

Lemma checkpoint_counted b w r w' :
  checkpoint b w = (r, w') -> counted true w w'.
Proof.
  intros H. pose proof H as (_ & _ & _ & _ & Hl)%checkpoint_proceeds.
  apply checkpoint_run in H as (d & Hadv & Hy & _).
  eexists. split; [by apply (adv_trace _ _ _ Hadv)|]. simpl.
  rewrite Hy, Hl. simpl. repeat split; lia.
Qed.

Lemma train_counted n op w r w' :
  train n op w = (r, w') -> 0 <= n ->
  counted (if r is Returns _ then true else false) w w'.
Proof.
  intros H Hn. pose proof H as Hst%train_state.
  apply train_run in H as (d & Hadv & Hy & _ & _ & _ & _ & Hl); [|done].
  eexists. split; [by apply (adv_trace _ _ _ Hadv)|]. simpl.
  rewrite Hy. simpl. rewrite Z.add_0_r. unfold latest in *.
  destruct Hst as [[-> Hr] | (ni & ->)]; simpl.
  - split; [lia|]. destruct r as [[]| |]; done.
  - split; [lia|]. intros _. lia.
Qed.

Lemma iteration_counted op w r w' :
  iteration op w = (r, w') ->
  counted (if r is Returns _ then true else false) w w'.
Proof.
  unfold iteration, pause_to_validate, pause_to_checkpoint, do_some_training.
  intros H. run_inv.
  all: repeat match goal with
       | H : validate _ _ = _ |- _ => apply validate_counted in H
       | H : checkpoint _ _ = _ |- _ => apply checkpoint_counted in H
       | H : next_num_batches _ _ = Ok _ |- _ =>
           apply next_num_batches_pos in H
       | H : train _ _ _ = _ |- _ => apply train_counted in H; [|lia]
       end.
  all: repeat match goal with
       | H1 : counted _ ?a ?b, H2 : counted _ ?b ?c |- _ =>
           pose proof (counted_trans _ _ _ _ _ H1 H2); clear H1 H2
       end.
  all: simpl in *.
  all: first [ assumption | apply counted_refl
             | eapply counted_weaken; eassumption
             | apply (counted_weaken true), counted_refl ].
Qed.

Lemma training_loop_counted fuel op w r w' :
  training_loop fuel op w = (r, w') ->
  counted (if r is Returns _ then true else false) w w'.
Proof.
  revert w r w'. induction fuel as [|fuel IH]; intros w r w' H.
  { pose proof H as Hw. apply training_loop_done in Hw as ->; [|done].
    destruct r; first [apply counted_refl | apply (counted_weaken true), counted_refl]. }
  destruct (batches_until_op_complete (self w) op) as [rem|e] eqn:Hrem.
  2: { apply training_loop_done in H as ->; [|intros ? ?; congruence].
       destruct r; first [apply counted_refl | apply (counted_weaken true), counted_refl]. }
  destruct (Z.ltb_spec 0 rem) as [Hpos|Hle].
  2: { apply training_loop_done in H as ->.
       - destruct r; first [apply counted_refl | apply (counted_weaken true), counted_refl].
       - intros rem' Hrem' ?. rewrite Hrem in Hrem'. simplify_eq. lia. }
  rewrite (training_loop_body _ _ _ _ Hrem Hpos) in H.
  apply bind_run in H as [(a & w1 & H1 & H2)|[(e & H1 & ->)|(H1 & ->)]].
  - apply iteration_counted in H1. apply IH in H2.
    pose proof (counted_trans _ _ _ _ _ H1 H2) as H. by simpl in H.
  - by apply iteration_counted in H1.
  - by apply iteration_counted in H1.
Qed.

Lemma finish_op_counted op w r w' :
  finish_op op w = (r, w') -> counted true w w'.
Proof.
  unfold finish_op. intros H. run_inv.
  all: repeat match goal with
       | H : validate _ _ = _ |- _ => apply validate_counted in H
       | H : checkpoint _ _ = _ |- _ => apply checkpoint_counted in H
       end.
  all: repeat match goal with
       | H1 : counted _ ?a ?b, H2 : counted _ ?b ?c |- _ =>
           pose proof (counted_trans _ _ _ _ _ H1 H2); clear H1 H2
       end.
  all: simpl in *.
  all: first [ assumption | apply counted_refl ].
Qed.

(** X11: the training workloads of an operation account for the batches
    trained: the body of an operation never advances [latest_batch] by more
    than the [num_batches] of the training workloads it has yielded, and
    when it returns it has advanced [latest_batch] by exactly their sum, so
    that no batch is counted twice and none is left out. *)
Theorem training_adds_up op w r w' :
  run_op op w = (r, w') ->
  exists d,
    trace w' = trace w ++ d /\
    0 <= latest w' - latest w <= batches_of (yields d) /\
    (r = Returns tt -> batches_of (yields d) = latest w' - latest w).
Proof.
  unfold run_op. intros H. run_inv.
  all: repeat match goal with
       | H : training_loop _ _ _ = _ |- _ => apply training_loop_counted in H
       | H : finish_op _ _ = _ |- _ => apply finish_op_counted in H
       end.
  all: repeat match goal with
       | H1 : counted _ ?a ?b, H2 : counted _ ?b ?c |- _ =>
           pose proof (counted_trans _ _ _ _ _ H1 H2); clear H1 H2
       end.
  all: simpl in *.
  all: match goal with
       | H : counted _ _ _ |- _ => destruct H as (d & Ht & Hl & Hf)
       end.
  all: exists d; split; [done|]; split; [done|]; intros Hr; try done.
  all: symmetry; by apply Hf.
Qed.

(** ** The state of a new and of a restored trial *)

Lemma load_state_cases snap s :
  load_state snap s = s \/
  snap_trial_id snap = Some (_trial_id s) /\
  (load_state snap s = set_state (SavableState_init (_trial_id s) snap) s \/
   load_state snap s
   = set_state (with_last_val
                  (latest_batch (SavableState_init (_trial_id s) snap))
                  (SavableState_init (_trial_id s) snap)) s).
Proof.
  unfold load_state. destruct (snap_trial_id snap) as [tid|]; [|by left].
  destruct (Z.eqb_spec tid (_trial_id s)) as [->|]; simpl; [|by left].
  right. split; [done|]. case_bool_decide; auto.
Qed.

(** X12: a trial is born keeping the pace of its periods: after [__init__]
    both periods are at least one batch and nothing was trained since the
    last validation and checkpoint; and [load_state] of the snapshot that
    [get_state] gave for a sequencer with the same periods that kept pace
    gives a sequencer that keeps pace. *)
Theorem born_keeping_pace env s :
  init env = Ok s ->
  keeps_pace s /\
  (forall other,
     keeps_pace other ->
     min_val_period_batches other = min_val_period_batches s ->
     min_ckpt_period_batches other = min_ckpt_period_batches s ->
     keeps_pace (load_state (get_state other) s)).
Proof.
  intros H.
  assert (keeps_pace s) as Hs.
  { unfold init in H.
    destruct (as_batches_spec _ (min_validation_period env)) as [v|]; [|done].
    destruct (as_batches_spec _ (min_checkpoint_period env)) as [c|]; [|done].
    simplify_eq. unfold keeps_pace, sys_maxsize. simpl.
    destruct (Z.ltb_spec v 1), (Z.ltb_spec c 1); lia. }
  split; [done|]. intros other Ho Hv Hc.
  destruct (load_state_cases (get_state other) s) as [-> | [Htid [-> | ->]]];
    [done|..].
  all: unfold keeps_pace in *; simpl; lia.
Qed.

(** X13: [load_state] never touches the configuration of the sequencer;
    loading the same snapshot twice is the same as loading it once; a
    snapshot of this trial replaces whatever state was loaded before it;
    and the keys that a snapshot of this trial lacks take the defaults of
    the constructor, so that a snapshot with the trial id alone gives the
    fresh state. *)
Theorem load_state_overrides s snap :
  load_state snap s = set_state (state (load_state snap s)) s /\
  load_state snap (load_state snap s) = load_state snap s /\
  (forall snap', snap_trial_id snap = Some (_trial_id s) ->
                 load_state snap (load_state snap' s) = load_state snap s) /\
  (snap = {| snap_trial_id := Some (_trial_id s); snap_last_ckpt := None;
             snap_latest_batch := None; snap_total_records := None;
             snap_step_id := None; snap_last_val := None |} ->
   load_state snap s = set_state (fresh_state (_trial_id s)) s).
Proof.
  assert (forall snap0 st,
            snap_trial_id snap0 = Some (_trial_id s) ->
            load_state snap0 (set_state st s) = load_state snap0 s) as Hmatch.
  { intros snap0 st Htid. unfold load_state. simpl.
    rewrite Htid, Z.eqb_refl. simpl. by case_bool_decide. }
  assert (forall snap0,
            load_state snap0 s = set_state (state (load_state snap0 s)) s)
    as Hconfig.
  { intros snap0.
    destruct (load_state_cases snap0 s) as [-> | [_ [-> | ->]]];
      [by rewrite set_state_id|done..]. }
  split; [done|]. split; [|split].
  - destruct (load_state_cases snap s) as [Hs | [Htid _]].
    + by rewrite !Hs.
    + rewrite (Hconfig snap) at 1. by apply Hmatch.
  - intros snap' Htid. rewrite (Hconfig snap'). by apply Hmatch.
  - intros ->. unfold load_state. simpl. rewrite Z.eqb_refl. simpl.
    by case_bool_decide.
Qed.

(** ** The errors of [as_batches] *)

(** X14: [as_batches] raises [ValueError] when not exactly one of
    [batches], [records] and [epochs] is given; a length in records or in
    epochs fails the check of the global batch size when that is not
    positive, and a length in epochs fails when [records_per_epoch] is
    unknown; and a length in records or in epochs that converts is never
    below one batch, also for no records at all. *)
Theorem as_batches_errors s b r e :
  (is_set b + is_set r + is_set e <> 1 ->
   exists msg, as_batches s b r e = Raise (ValueError msg)) /\
  (b = None -> is_set r + is_set e = 1 -> global_batch_size s <= 0 ->
   exists msg, as_batches s b r e = Raise (CheckFailedError msg)) /\
  (b = None -> r = None -> is_set e = 1 -> records_per_epoch s = None ->
   exists msg, as_batches s b r e = Raise (CheckFailedError msg)) /\
  (forall n, b = None -> as_batches s b r e = Ok n -> 1 <= n).
Proof.
  unfold as_batches.
  destruct b as [b|], r as [r|], e as [e|]; simpl;
    repeat split; try done; try lia; eauto.
  all: intros; simplify_eq.
  all: repeat case_match; simplify_eq; eauto; try lia.
  all: repeat match goal with
       | H : negb _ = false |- _ => apply negb_false_iff in H
       | H : negb _ = true |- _ => apply negb_true_iff in H
       | H : (_ <? _) = true |- _ => apply Z.ltb_lt in H
       | H : (_ <? _) = false |- _ => apply Z.ltb_ge in H
       end.
  all: try lia.
Qed.

(** ** The step-zero validation *)

(** X15: the validation before any training is done exactly when the
    configuration asks for it, the master knows of no validation from a
    previous run, and no batch was trained yet; otherwise nothing happens.
    It never calls [complete] on an operation and trains nothing. *)
Theorem step_zero_validation w r w' :
  initial_validation w = (r, w') ->
  (want_initial_val (self w) = false \/
   val_from_previous_run (self w) <> None \/
   latest_batch (state (self w)) <> 0 ->
   r = Returns tt /\ w' = w) /\
  (want_initial_val (self w) = true ->
   val_from_previous_run (self w) = None ->
   latest_batch (state (self w)) = 0 ->
   starts_with (validation_events (self w)) w w') /\
  (exists d, trace w' = trace w ++ d /\ no_completion d) /\
  latest w' = latest w.
Proof.
  intros H. split; [|split; [|split]].
  - intros Hskip. unfold initial_validation in H.
    unfold bind at 1, get_self, when in H.
    assert (want_initial_val (self w)
            && bool_decide (val_from_previous_run (self w) = None)
            && (latest_batch (state (self w)) =? 0) = false) as Hc.
    { destruct Hskip as [-> | [Hv | Hl]]; [done| |].
      - rewrite bool_decide_eq_false_2 by done. by rewrite andb_false_r.
      - apply Z.eqb_neq in Hl. rewrite Hl. by rewrite andb_false_r. }
    rewrite Hc in H. unfold ret in H. by simplify_eq.
  - intros Hw Hv Hl. unfold initial_validation in H.
    unfold bind at 1, get_self, when in H.
    rewrite Hw, Hl, bool_decide_eq_true_2 in H by done. simpl in H.
    by eapply validate_starts_with.
  - apply initial_validation_run in H as (d & [Hadv _] & Hn & _).
    exists d. split; [by apply (adv_trace _ _ _ Hadv)|done].
  - unfold initial_validation in H. run_inv; [|done].
    by apply validate_proceeds in H as (_ & _ & _ & ?).
Qed.

(** ** The chief and its workers *)

Lemma broadcasts_chief_loop wklds tl :
  broadcasts (chief_loop wklds ++ tl) = map Some wklds ++ broadcasts tl.
Proof. induction wklds as [|wkld wklds IH]; simpl; [done|]. by rewrite IH. Qed.

Lemma processed_chief_loop wklds tl :
  processed (chief_loop wklds ++ tl) = wklds ++ processed tl.
Proof. induction wklds as [|wkld wklds IH]; simpl; [done|]. by rewrite IH. Qed.

Lemma worker_workloads_released wklds :
  worker_workloads (map Some wklds ++ [None])
  = (chief_loop wklds ++ [Broadcast None], Returns tt).
Proof. induction wklds as [|wkld wklds IH]; simpl; [done|]. by rewrite IH. Qed.

Lemma worker_workloads_waiting wklds :
  worker_workloads (map Some wklds) = (chief_loop wklds, OutOfFuel).
Proof. induction wklds as [|wkld wklds IH]; simpl; [done|]. by rewrite IH. Qed.


(** ** The computations that come to an operation *)

Lemma starts_with_refl w : starts_with [] w w.
Proof. exists []. simpl. by rewrite app_nil_r. Qed.

Lemma finish_op_extends op w r w' :
  finish_op op w = (r, w') -> starts_with [] w w'.
Proof.
  intros H. apply finish_op_run in H as (d & Hp & _).
  by eapply proceeds_starts_with.
Qed.

Lemma for_ops_extends ops w r w' :
  for_ops ops w = (r, w') -> starts_with [] w w'.
Proof.
  intros H. apply for_ops_run in H as (d & Hp & _).
  by eapply proceeds_starts_with.
Qed.

Lemma on_should_exit_extends w r w' :
  on_should_exit w = (r, w') -> starts_with [] w w'.
Proof.
  intros H. apply on_should_exit_run in H as (d & Hp & _).
  by eapply proceeds_starts_with.
Qed.

(** The body of an operation whose target is not reached runs the loop. *)
Lemma run_op_enters_loop op w rem r w' :
  batches_until_op_complete (self w) op = Ok rem -> 0 < rem ->
  run_op op w = (r, w') ->
  exists fuel r1 w1,
    training_loop (S fuel) op w = (r1, w1) /\ starts_with [] w1 w'.
Proof.
  intros Hrem Hpos H. unfold run_op in H.
  exists (Nat.pred (loop_fuel op w)).
  assert (S (Nat.pred (loop_fuel op w)) = loop_fuel op w) as ->.
  { rewrite (loop_fuel_spec _ _ _ Hrem). lia. }
  apply bind_run in H as [(a & w1 & H1 & H2)|[(e & H1 & _)|[H1 _]]].
  - exists (Returns a), w1. split; [done|]. by eapply finish_op_extends.
  - exists (Raises e), w'. split; [done|]. apply starts_with_refl.
  - exists OutOfFuel, w'. split; [done|]. apply starts_with_refl.
Qed.

(** The loop over a feed runs the body of its first operation. *)
Lemma for_ops_enters_body op rest w r w' :
  for_ops (op :: rest) w = (r, w') ->
  exists r1 w1, run_op op w = (r1, w1) /\ starts_with [] w1 w'.
Proof.
  simpl. intros H.
  apply bind_run in H as [(a & w1 & H1 & H2)|[(e & H1 & _)|[H1 _]]].
  - exists (Returns a), w1. split; [done|]. by eapply for_ops_extends.
  - exists (Raises e), w'. split; [done|]. apply starts_with_refl.
  - exists OutOfFuel, w'. split; [done|]. apply starts_with_refl.
Qed.

(** A run of the generator runs the loop over its feed, from the world
    that the step-zero check leaves. *)
Lemma iter_enters_feed ops w0 w r w' :
  initial_validation (snd (emit EPreemptionStart w0)) = (Returns tt, w) ->
  iter ops w0 = (r, w') ->
  exists r1 w1, for_ops ops w = (r1, w1) /\ starts_with [] w1 w'.
Proof.
  intros Hi H. unfold iter in H.
  apply bind_run in H as [(a & w1 & He & H)|[H|H]].
  2: { destruct H as (e & H & _). unfold emit in H. simplify_eq. }
  2: { destruct H as [H _]. unfold emit in H. simplify_eq. }
  assert (w1 = snd (emit EPreemptionStart w0)) as -> by by rewrite He.
  apply try_finally_run in H as (w2 & H & ->).
  destruct (for_ops ops w) as [r1 wf] eqn:Hf. exists r1, wf. split; [done|].
  assert ((initial_validation;; for_ops ops)%gen
            (snd (emit EPreemptionStart w0)) = (r1, wf)) as Hbody.
  { unfold bind. by rewrite Hi. }
  assert (starts_with [] wf w2) as Hs.
  { apply try_except_ShouldExit_run in H as [(w3 & H1 & H2)|[H1 _]].
    - rewrite Hbody in H1. simplify_eq. by eapply on_should_exit_extends.
    - rewrite Hbody in H1. simplify_eq. apply starts_with_refl. }
  eapply starts_with_nil_trans; [exact Hs|].
  by exists [EPreemptionClose].
Qed.

Lemma processes_body_run op w r w' :
  processes op w r w' ->
  exists r1 w1, run_op op w = (r1, w1) /\ starts_with [] w1 w'.
Proof.
  intros [r0 w0' H | rest r0 w0' H | rest w0 r0 w0' Hi H].
  - exists r0, w0'. split; [done|apply starts_with_refl].
  - by eapply for_ops_enters_body.
  - eapply iter_enters_feed in H as (r1 & w1 & H & Hs); [|exact Hi].
    apply for_ops_enters_body in H as (r2 & w2 & H & Hs2).
    exists r2, w2. split; [done|]. by eapply starts_with_nil_trans.
Qed.

Lemma enters_loop_run op w rem r w' :
  batches_until_op_complete (self w) op = Ok rem -> 0 < rem ->
  enters op w r w' ->
  exists fuel r1 w1,
    training_loop (S fuel) op w = (r1, w1) /\ starts_with [] w1 w'.
Proof.
  intros Hrem Hpos [fuel r0 w0' H | r0 w0' H].
  - exists fuel, r0, w0'. split; [done|apply starts_with_refl].
  - apply processes_body_run in H as (r1 & w1 & H & Hs).
    eapply run_op_enters_loop in H as (fuel & r2 & w2 & H & Hs2); [|done..].
    exists fuel, r2, w2. split; [done|]. by eapply starts_with_nil_trans.
Qed.

(** What an iteration of the loop has done when its validation check has
    come back, and when its checkpoint check has. *)
Lemma enters_after_validation_check op w rem r w' ra wa :
  batches_until_op_complete (self w) op = Ok rem -> 0 < rem ->
  enters op w r w' ->
  pause_to_validate op w = (ra, wa) ->
  starts_with [] wa w'.
Proof.
  intros Hrem Hpos He Hpv.
  eapply enters_loop_run in He as (fuel & r1 & w1 & H & Hs); [|done..].
  rewrite (training_loop_iteration _ _ _ rem) in H by done.
  unfold bind at 1 in H. rewrite Hpv in H.
  eapply starts_with_nil_trans; [|exact Hs].
  destruct ra as [[]|e|]; simplify_eq; try apply starts_with_refl.
  by eapply after_validation_extends.
Qed.

Lemma enters_after_checkpoint_check op w rem r w' wa rb wb :
  batches_until_op_complete (self w) op = Ok rem -> 0 < rem ->
  enters op w r w' ->
  pause_to_validate op w = (Returns tt, wa) ->
  pause_to_checkpoint wa = (rb, wb) ->
  starts_with [] wb w'.
Proof.
  intros Hrem Hpos He Hpv Hpc.
  eapply enters_loop_run in He as (fuel & r1 & w1 & H & Hs); [|done..].
  rewrite (training_loop_iteration _ _ _ rem) in H by done.
  unfold bind at 1 in H. rewrite Hpv in H.
  unfold bind at 1 in H. rewrite Hpc in H.
  eapply starts_with_nil_trans; [|exact Hs].
  destruct rb as [[]|e|]; simplify_eq; try apply starts_with_refl.
  by eapply training_steps_extend.
Qed.

Lemma checks_keep_target op w rem wa rb wb :
  batches_until_op_complete (self w) op = Ok rem -> 0 < rem ->
  pause_to_validate op w = (Returns tt, wa) ->
  pause_to_checkpoint wa = (rb, wb) ->
  batches_until_op_complete (self wa) op = Ok rem /\
  batches_until_op_complete (self wb) op = Ok rem.
Proof.
  intros Hrem Hpos Hpv Hpc.
  eapply pause_to_validate_run in Hpv as (d1 & [Ha1 _] & _ & _ & Hl1);
    [|done..].
  apply pause_to_checkpoint_run in Hpc as (d2 & [Ha2 _] & _ & _ & Hl2).
  pose proof (batches_until_op_complete_advances _ _ _ _ _ Ha1 Hrem) as H1.
  rewrite Hl1, Z.sub_diag, Z.sub_0_r in H1. split; [done|].
  pose proof (batches_until_op_complete_advances _ _ _ _ _ Ha2 H1) as H2.
  by rewrite Hl2, Z.sub_diag, Z.sub_0_r in H2.
Qed.

(** ** The size of a training step (C2) *)

(** C2: whenever the main loop comes to its training step, in the state
    [wb] that the validation check and the checkpoint check of the iteration
    have left, it yields a training workload made in that state whose
    [num_batches] is [max(1, min(batches_until_ckpt, batches_until_val,
    batches_until_op_complete, scheduling_unit))] of that state, as the
    next thing after the two checks; this number is at least 1; this holds
    for the loop alone, for the body of the operation, for the loop over
    the feed and for the run of the generator that come to the operation;
    and in a whole run of the generator every training workload trains at
    least one batch. *)
Theorem train_num_batches op w rem wa wb :
  batches_until_op_complete (self w) op = Ok rem -> 0 < rem ->
  pause_to_validate op w = (Returns tt, wa) ->
  pause_to_checkpoint wa = (Returns tt, wb) ->
  let n := Z.max 1 (Z.min (batches_until_ckpt (self wb))
                   (Z.min (batches_until_val (self wb))
                   (Z.min rem (scheduling_unit (self wb))))) in
  batches_until_op_complete (self wb) op = Ok rem /\
  1 <= n /\
  (forall r w',
     enters op w r w' ->
     exists d,
       trace w' =
       trace wb ++
       [ESetStatus "training";
        EYield (make_workload Workload.RUN_STEP (self wb)
                  (step_id (state (self wb)) + 1) n)] ++ d) /\
  (forall ops w0 r0 w0',
     iter ops w0 = (r0, w0') ->
     exists d, trace w0' = trace w0 ++ d /\ Forall trains_some (yields d)).
Proof.
  intros Hrem Hpos Hpv Hpc n.
  destruct (checks_keep_target _ _ _ _ _ _ Hrem Hpos Hpv Hpc) as [_ Hremb].
  split; [done|]. split; [lia|]. split.
  - intros r w' He.
    eapply enters_loop_run in He as (fuel & r1 & w1 & H & Hs); [|done..].
    rewrite (training_loop_iteration _ _ _ rem) in H by done.
    unfold bind at 1 in H. rewrite Hpv in H.
    unfold bind at 1 in H. rewrite Hpc in H.
    assert (starts_with
              [ESetStatus "training";
               EYield (make_workload Workload.RUN_STEP (self wb)
                         (step_id (state (self wb)) + 1) n)] wb w1) as Hs1.
    { eapply bind_starts_with; [exact H| |].
      - intros r2 w2 H2.
        eapply do_some_training_yield in H2 as (d & H2 & _); [|done].
        exists d. by rewrite H2.
      - intros ? w2 r3 w3 H3. cbv beta in H3.
        by eapply training_loop_starts_with. }
    by eapply starts_with_nil_trans.
  - intros ops w0 r0 w0' Hiter.
    apply iter_run in Hiter as (d & [Hadv Hall] & _).
    exists d. split; [by apply (adv_trace _ _ _ Hadv)|done].
Qed.

(** ** When validations and checkpoints are due (C3) *)


(** ** The order of validations and checkpoints (C4) *)

Lemma make_workload_set_state k st s sid nb :
  latest_batch st = latest_batch (state s) ->
  make_workload k (set_state st s) sid nb = make_workload k s sid nb.
Proof. intros H. unfold make_workload. simpl. by rewrite H. Qed.

(** The loop that has returned has reached the target, and the body of the
    operation goes on with the final checks. *)
Lemma processes_after_loop op w r w' wl :
  processes op w r w' ->
  training_loop (loop_fuel op w) op w = (Returns tt, wl) ->
  exists r1 w1, finish_op op wl = (r1, w1) /\ run_op op w = (r1, w1) /\
                starts_with [] w1 w'.
Proof.
  intros Hp Hloop. apply processes_body_run in Hp as (r1 & w1 & H & Hs).
  exists r1, w1. split; [|done].
  unfold run_op in H. unfold bind in H. by rewrite Hloop in H.
Qed.

(** C4: while the target of the operation is not reached, an iteration of
    the main loop that finds a validation due yields the validation
    workload first; when the validation returns and a checkpoint is then
    due, the checkpoint workload is yielded next, after the events of the
    validation; and when a checkpoint was due as well at the start of the
    iteration, a checkpoint workload is the next workload after the
    validation workload.  Once the loop has returned, the target is reached
    and the order is the other one: if the checkpoint is not current the
    checkpoint workload is yielded first and, when the checkpoint returns
    and the validation is not current, the validation workload is yielded
    next; if the checkpoint is current and the validation is not, the
    validation workload is yielded first; and if both are current the body
    of the operation yields nothing more.  This holds for the body of the
    operation, for the loop over the feed and for the run of the generator
    that come to the operation. *)
Theorem validation_and_checkpoint_order op w :
  (forall rem r w',
     batches_until_op_complete (self w) op = Ok rem -> 0 < rem ->
     enters op w r w' ->
     batches_until_val (self w) < 1 ->
     starts_with (validation_events (self w)) w w' /\
     (forall wa,
        validate (Some op) w = (Returns tt, wa) ->
        (batches_until_ckpt (self wa) < 1 ->
         starts_with (validation_events (self w)) w wa /\
         starts_with (checkpoint_events (self wa)) wa w') /\
        (batches_until_ckpt (self w) < 1 ->
         forall rb wb,
           pause_to_checkpoint wa = (rb, wb) ->
           starts_with [] wb w' /\
           exists d tl,
             trace wb = trace w ++ d /\
             yields d =
             make_workload Workload.COMPUTE_VALIDATION_METRICS (self w)
               (step_id (state (self w))) 0
             :: make_workload Workload.CHECKPOINT_MODEL (self w)
                  (step_id (state (self w))) 0
             :: tl))) /\
  (forall r w' wl,
     processes op w r w' ->
     training_loop (loop_fuel op w) op w = (Returns tt, wl) ->
     (exists rem, batches_until_op_complete (self wl) op = Ok rem /\ rem <= 0) /\
     starts_with [] w wl /\
     starts_with [] wl w' /\
     (checkpoint_is_current (self wl) = false ->
      starts_with (checkpoint_events (self wl)) wl w' /\
      (forall w1,
         checkpoint false wl = (Returns tt, w1) ->
         validation_is_current (self wl) = false ->
         starts_with (checkpoint_events (self wl)) wl w1 /\
         starts_with (validation_events (self w1)) w1 w')) /\
     (checkpoint_is_current (self wl) = true ->
      validation_is_current (self wl) = false ->
      starts_with (validation_events (self wl)) wl w') /\
     (checkpoint_is_current (self wl) = true ->
      validation_is_current (self wl) = true ->
      forall r1 w1, run_op op w = (r1, w1) -> w1 = wl)).
Proof.
  split.
  - intros rem r w' Hrem Hpos He Hdue.
    pose proof (pause_to_validate_due op w Hdue) as Hpv.
    destruct (validate (Some op) w) as [rv wv] eqn:Hv.
    pose proof (validate_starts_with _ _ _ _ Hv) as Hsv.
    pose proof (enters_after_validation_check _ _ _ _ _ _ _ Hrem Hpos He Hpv)
      as Hsa.
    split; [by eapply starts_with_nil_trans|].
    intros wa Hwa. simplify_eq. split.
    + intros Hckpt. split; [done|].
      pose proof (pause_to_checkpoint_due wa Hckpt) as Hpc.
      destruct (checkpoint false wa) as [rc wc] eqn:Hc.
      eapply starts_with_nil_trans; [by eapply checkpoint_starts_with|].
      by eapply enters_after_checkpoint_check.
    + intros Hckpt rb wb Hpc.
      split; [by eapply enters_after_checkpoint_check|].
      pose proof Hv as Hout. apply validate_outcome in Hout as (d & Hadv & Hst).
      pose proof (adv_trace _ _ _ Hadv) as Htr.
      destruct Hst as [(_ & _ & Hr) | [(Hst & Hy & _) | (Hst & Hy & _)]];
        [done| |].
      * assert (batches_until_ckpt (self wa) < 1) as Hdue'.
        { unfold batches_until_ckpt in *.
          rewrite (adv_config _ _ _ Hadv). simpl. rewrite Hst. simpl. lia. }
        rewrite pause_to_checkpoint_due in Hpc by done.
        apply checkpoint_run in Hpc as (d' & Hadv' & Hy' & _).
        eexists _, []. split.
        { rewrite (adv_trace _ _ _ Hadv'), Htr. by rewrite <- app_assoc. }
        simpl. rewrite yields_app. simpl. rewrite Hy, Hy'. simpl.
        do 2 f_equal. rewrite (adv_config _ _ _ Hadv), Hst.
        by apply make_workload_set_state.
      * apply pause_to_checkpoint_run in Hpc as (d' & [Hadv' _] & _).
        eexists _, (yields d'). split.
        { rewrite (adv_trace _ _ _ Hadv'), Htr. by rewrite <- app_assoc. }
        simpl. rewrite yields_app. by rewrite Hy.
  - intros r w' wl Hp Hloop.
    pose proof Hloop as Hl. apply training_loop_run in Hl as (d & Hpl & _ & Hrem & _).
    destruct (processes_after_loop _ _ _ _ _ Hp Hloop)
      as (r1 & w1 & H & Hrun & Hs).
    split; [by apply Hrem|]. split; [by eapply proceeds_starts_with|].
    split; [eapply starts_with_nil_trans; [by eapply finish_op_extends|done]|].
    unfold finish_op in H. unfold bind at 1, get_self in H.
    split; [|split].
    + intros Hc. rewrite Hc in H. simpl in H.
      destruct (checkpoint false wl) as [[[]|e|] wc] eqn:Hck.
      * unfold bind at 1 in H. rewrite Hck in H.
        pose proof (checkpoint_starts_with _ _ _ _ Hck) as Hsc.
        assert (validation_is_current (self wc) = validation_is_current (self wl))
          as Hsame.
        { apply checkpoint_run in Hck as (d' & _ & _ & _ & _ & Hst).
          unfold validation_is_current. by rewrite Hst. }
        apply finish_op_tail_extends in H as [Hnv Hv].
        split.
        -- eapply starts_with_nil_trans; [|exact Hs].
           destruct (validation_is_current (self wc)) eqn:Hcur.
           ++ by rewrite (Hv eq_refl).
           ++ eapply starts_with_nil_trans; [exact Hsc|].
              destruct (Hnv eq_refl) as (d' & Hd).
              exists (validation_events (self wc) ++ d'). by rewrite Hd.
        -- intros w1' Hw1 Hval. simplify_eq. split; [done|].
           eapply starts_with_nil_trans; [|exact Hs].
           apply Hnv. by rewrite Hsame.
      * unfold bind at 1 in H. rewrite Hck in H. simplify_eq.
        split; [|done].
        eapply starts_with_nil_trans; [by eapply checkpoint_starts_with|done].
      * unfold bind at 1 in H. rewrite Hck in H. simplify_eq.
        split; [|done].
        eapply starts_with_nil_trans; [by eapply checkpoint_starts_with|done].
    + intros Hc Hv. rewrite Hc in H. simpl in H. unfold bind at 1, ret in H.
      eapply starts_with_nil_trans; [|exact Hs].
      by apply finish_op_tail_extends in H as [Hnv _]; apply Hnv.
    + intros Hc Hv r2 w2 Hrun2. rewrite Hrun in Hrun2. simplify_eq.
      rewrite Hc in H. simpl in H. unfold bind at 1, ret in H.
      by apply finish_op_tail_extends in H as [_ Hcur]; apply Hcur.
Qed.

End Proofs.

(** ** The theorems at work on the concrete trial *)

Lemma invalid_hp_aborts_witness :
  train 5 Example.op Example.started_at_five
  = (Raises ShouldExit, after_invalid_hp 5 Example.started_at_five) /\
  exists r w' d,
    iter [Example.op] Example.rejected_at_five = (r, w') /\
    r <> Raises ShouldExit /\
    trace w' = trace (after_invalid_hp 5 Example.started_at_five)
               ++ d ++ [EPreemptionClose] /\
    yields d = [make_workload Workload.CHECKPOINT_MODEL
                  (self Example.rejected_at_five) 1 0] /\
    latest_batch (state (self w')) = 5.
Proof.
  destruct (invalid_hp_aborts 5 Example.op Example.started_at_five
              (Example.response_to (Some INVALID_HP)
                 (make_workload Workload.RUN_STEP
                    (self Example.started_at_five) 2 5)))
    as (Htrain & _ & _ & Hloops & Hiter).
  - reflexivity.
  - reflexivity.
  - split; [exact Htrain|].
    destruct (Hiter [Example.op] Example.rejected_at_five)
      as (r & w' & d & Hrun & Hne & _ & Htr & Hy & Hl & _).
    + rewrite <- (Hloops [] Example.started_at_five Example.started_at_five 5);
        reflexivity.
    + exists r, w', d. repeat split; [exact Hrun|exact Hne|exact Htr|exact Hy|exact Hl].
Defined.

Lemma operations_completed_once_witness :
  exists d,
    trace (snd (run_op Example.op Example.fresh)) = trace Example.fresh ++ d /\
    completions 0 d = 1%nat.
Proof.
  destruct (operations_completed_once Example.op Example.fresh) as [H _].
  destruct (H _ _ (surjective_pairing _)) as (_ & d & Htr & _ & _ & Hone).
  exists d. split; [exact Htr|].
  apply Hone.
  - by vm_compute.
  - apply not_elem_of_empty.
Defined.

Lemma as_batches_conversion_witness :
  as_batches Example.quartets None (Some 10) None = Ok 2 /\
  as_batches (Example.sequencer 5 5) None None (Some 2) = Ok 20.
Proof.
  split.
  - destruct (as_batches_conversion Example.quartets) as (_ & _ & _ & H & _).
    apply H. reflexivity.
  - destruct (as_batches_conversion (Example.sequencer 5 5))
      as (_ & _ & _ & _ & H).
    apply H; reflexivity.
Defined.

Lemma load_state_round_trip_witness :
  load_state
    (get_state (set_state Example.five_batches (Example.sequencer 5 5)))
    (Example.sequencer 5 5)
  = set_state Example.five_batches (Example.sequencer 5 5).
Proof.
  destruct (load_state_round_trip (Example.sequencer 5 5)
              (set_state Example.five_batches (Example.sequencer 5 5)))
    as [H _].
  destruct H as [_ H]; [reflexivity|].
  apply H. discriminate.
Defined.

Lemma handshake_responses_witness :
  fst (yield_and_await_response
         (make_workload Workload.RUN_STEP (self Example.fresh) 1 10)
         Example.fresh)
  = Returns (Example.response_to None
               (make_workload Workload.RUN_STEP (self Example.fresh) 1 10)).
Proof.
  destruct (handshake_responses
              (make_workload Workload.RUN_STEP (self Example.fresh) 1 10)
              Example.fresh) as (_ & H & _).
  rewrite (H (Example.response_to None
                (make_workload Workload.RUN_STEP (self Example.fresh) 1 10)));
    reflexivity.
Defined.

(** The claim C9 as it is written fails: the consumer of
    [Example.answered_twice] calls the response function twice for the same
    workload, and no assertion fails: the generator goes on with the second
    response. *)
Lemma second_response_goes_unnoticed :
  executor (io Example.answered_twice)
    (trace Example.answered_twice ++
     [EYield (make_workload Workload.RUN_STEP
                (self Example.answered_twice) 1 10)])
  = [RMetrics (Example.response_to (Some INVALID_HP)
                 (make_workload Workload.RUN_STEP
                    (self Example.answered_twice) 1 10));
     RMetrics (Example.response_to None
                 (make_workload Workload.RUN_STEP
                    (self Example.answered_twice) 1 10))] /\
  fst (yield_and_await_response
         (make_workload Workload.RUN_STEP (self Example.answered_twice) 1 10)
         Example.answered_twice)
  = Returns (Example.response_to None
               (make_workload Workload.RUN_STEP
                  (self Example.answered_twice) 1 10)).
Proof. split; reflexivity. Qed.

Lemma periods_switched_off_witness :
  min_val_period_batches (Example.sequencer sys_maxsize sys_maxsize)
  = sys_maxsize /\
  (batches_until_val
     (set_state Example.five_batches
        (Example.sequencer sys_maxsize sys_maxsize)) < 1 <->
   sys_maxsize <= 5 - 0).
Proof.
  destruct (periods_switched_off (Example.env 0 0)
              (Example.sequencer sys_maxsize sys_maxsize))
    as (v & c & Hv & _ & Hp & _ & _ & _ & Hdue & _).
  - reflexivity.
  - assert (v = 0) as -> by (vm_compute in Hv; congruence).
    split; [exact Hp|]. apply (Hdue ltac:(lia) Example.five_batches).
Defined.

(** The claim C10 as it is written fails: with the validation period
    switched off at construction, a validation is still due on its own in
    the state that [load_state] restores from a snapshot taken after
    [sys.maxsize] batches, and the validation check of the main loop yields
    a validation workload there. *)
Lemma switched_off_period_still_due :
  init (Example.env 0 0) = Ok (Example.sequencer sys_maxsize sys_maxsize) /\
  as_batches_spec (Example.sequencer sys_maxsize sys_maxsize)
    (min_validation_period (Example.env 0 0)) = Ok 0 /\
  batches_until_val
    (load_state Example.far_snapshot
       (Example.sequencer sys_maxsize sys_maxsize)) < 1 /\
  head
    (yields
       (trace
          (snd (pause_to_validate Example.op
                  (Example.world (Example.answer_once None)
                     (load_state Example.far_snapshot
                        (Example.sequencer sys_maxsize sys_maxsize)))))))
  = Some (make_workload Workload.COMPUTE_VALIDATION_METRICS
            (load_state Example.far_snapshot
               (Example.sequencer sys_maxsize sys_maxsize)) 1 0).
Proof. repeat split; by vm_compute. Qed.

Lemma counters_stay_in_order_witness :
  counters_ok (state (self Example.fresh)) /\
  latest Example.fresh
  <= latest (snd (do_some_training Example.op Example.fresh)) /\
  latest_batch (state (Example.sequencer 5 5))
  <= latest_batch
       (state (load_state (get_state (self Example.fresh))
                 (Example.sequencer 5 5))).
Proof.
  destruct (counters_stay_in_order Example.fresh) as (Hc & Hs & Hl).
  { apply (reach_init (Example.env 0 0)). reflexivity. }
  split; [exact Hc|]. split.
  - apply (Hs (snd (do_some_training Example.op Example.fresh))).
    apply step_train.
  - apply (Hl (Example.env 5 5)). reflexivity.
Defined.

Lemma train_num_batches_witness :
  let w := Example.seldom_saved_at_five in
  let wb := snd (pause_to_validate Example.op w) in
  exists d,
    trace (snd (run_op Example.op w)) =
    trace wb ++
    [ESetStatus "training";
     EYield (make_workload Workload.RUN_STEP (self wb) 2 5)] ++ d.
Proof.
  intros w wb.
  destruct (train_num_batches Example.op w 5 wb wb) as (_ & _ & H & _).
  - reflexivity.
  - lia.
  - by vm_compute.
  - by vm_compute.
  - apply (H (fst (run_op Example.op w))).
    apply enters_body, processes_body, surjective_pairing.
Defined.



Lemma validation_and_checkpoint_order_witness :
  let w := Example.plain_at_five in
  let wa := snd (validate (Some Example.op) w) in
  starts_with (validation_events (self w)) w wa /\
  starts_with (checkpoint_events (self wa)) wa (snd (run_op Example.op w)).
Proof.
  intros w wa.
  destruct (validation_and_checkpoint_order Example.op w) as [H _].
  destruct (H 5 (fst (run_op Example.op w)) (snd (run_op Example.op w)))
    as [_ Hnext].
  - reflexivity.
  - lia.
  - apply enters_body, processes_body, surjective_pairing.
  - by vm_compute.
  - destruct (Hnext wa) as [Hn _].
    + by vm_compute.
    + apply Hn. by vm_compute.
Defined.

(** ** Further properties at work on the concrete trial *)

Lemma counters_evolve_witness :
  step_id (state (self Example.fresh))
  <= step_id (state (self (snd (iter [Example.op] Example.fresh)))).
Proof.
  destruct (counters_evolve Example.fresh
              (snd (iter [Example.op] Example.fresh)))
    as (_ & _ & H & _).
  - apply step_iter.
  - exact H.
Defined.

Lemma generator_ends_witness :
  fst (iter [Example.op] Example.fresh) <> Raises ShouldExit.
Proof. apply (generator_ends [Example.op] Example.fresh). Defined.

Lemma preemption_watcher_closed_witness :
  exists d,
    trace (snd (iter [Example.op] Example.rejected))
    = trace Example.rejected ++ [EPreemptionStart] ++ d ++ [EPreemptionClose].
Proof. apply (preemption_watcher_closed [Example.op] Example.rejected). Defined.

Lemma training_stops_at_target_witness :
  latest (snd (run_op Example.op Example.paced)) = 10.
Proof.
  destruct (training_stops_at_target Example.op Example.paced
              (fst (run_op Example.op Example.paced))
              (snd (run_op Example.op Example.paced)) 10) as [_ H].
  - apply surjective_pairing.
  - reflexivity.
  - by vm_compute.
  - apply H. by vm_compute.
Defined.

Lemma operation_ends_saved_witness :
  let w' := snd (run_op Example.op Example.fresh) in
  last_ckpt (state (self w')) = latest_batch (state (self w')) /\
  last_val (state (self w')) = latest_batch (state (self w')).
Proof.
  intros w'.
  destruct (operation_ends_saved Example.op Example.fresh w') as (Hc & Hv & _).
  - by vm_compute.
  - split; [exact Hc|exact Hv].
Defined.

Lemma repeated_target_fails_witness :
  let w' := snd (run_op Example.op Example.fresh) in
  run_op Example.op_again w' =
  (Raises (AssertionError "logic error; op was never completed"), w').
Proof.
  intros w'.
  apply (repeated_target_fails Example.op Example.op_again Example.fresh w' 10).
  - by vm_compute.
  - reflexivity.
  - by vm_compute.
  - intros H. vm_compute in H. discriminate H.
Defined.

Lemma pace_is_kept_witness :
  keeps_pace (self (snd (iter [Example.op] Example.paced))).
Proof.
  apply (pace_is_kept [Example.op] Example.paced
           (fst (iter [Example.op] Example.paced))).
  - apply surjective_pairing.
  - unfold keeps_pace. simpl. lia.
Defined.

Lemma validation_checkpoint_policy_witness :
  let w' := snd (validate None Example.paced_at_five) in
  last_val (state (self w')) = latest_batch (state (self w')).
Proof.
  intros w'.
  destruct (validation_checkpoint_policy None Example.paced_at_five
              (fst (validate None Example.paced_at_five)) w')
    as (_ & _ & H).
  - apply surjective_pairing.
  - destruct H as [H _]; [by vm_compute|exact H].
Defined.

Lemma user_canceled_keeps_work_witness :
  let w' := snd (train 5 Example.op Example.canceled) in
  fst (train 5 Example.op Example.canceled) = Raises ShouldExit /\
  checkpoint_is_current (self w') = false.
Proof.
  intros w'.
  destruct (user_canceled_keeps_work 5 Example.op Example.canceled
              (Example.response_to (Some USER_CANCELED)
                 (make_workload Workload.RUN_STEP
                    (self Example.canceled) 1 5))
              (Some 64) 10
              (fst (train 5 Example.op Example.canceled)) w')
    as (Hr & _ & _ & Hc).
  - apply surjective_pairing.
  - reflexivity.
  - reflexivity.
  - reflexivity.
  - reflexivity.
  - split; [exact Hr|]. apply Hc; [lia|]. by vm_compute.
Defined.

Lemma checkpoint_exit_reasons_witness :
  let w' := snd (checkpoint true Example.paced_at_five) in
  last_ckpt (state (self w')) = latest_batch (state (self w')) /\
  fst (checkpoint true Example.paced_at_five) = Returns tt.
Proof.
  intros w'.
  destruct (checkpoint_exit_reasons true Example.paced_at_five
              (fst (checkpoint true Example.paced_at_five)) w'
              (Example.response_to None
                 (make_workload Workload.CHECKPOINT_MODEL
                    (self Example.paced_at_five) 1 0))
              Example.storage)
    as (Hc & rs & tl & _ & Hexit & _).
  - apply surjective_pairing.
  - reflexivity.
  - reflexivity.
  - split; [exact Hc|]. by destruct (Hexit eq_refl).
Defined.

Lemma training_adds_up_witness :
  exists d,
    trace (snd (run_op Example.op Example.paced))
    = trace Example.paced ++ d /\
    batches_of (yields d)
    = latest (snd (run_op Example.op Example.paced)) - latest Example.paced.
Proof.
  destruct (training_adds_up Example.op Example.paced
              (fst (run_op Example.op Example.paced))
              (snd (run_op Example.op Example.paced)))
    as (d & Htr & _ & H).
  - apply surjective_pairing.
  - exists d. split; [exact Htr|]. apply H. by vm_compute.
Defined.

Lemma born_keeping_pace_witness : keeps_pace (Example.sequencer 5 5).
Proof.
  destruct (born_keeping_pace (Example.env 5 5) (Example.sequencer 5 5))
    as [H _].
  - reflexivity.
  - exact H.
Defined.

Lemma load_state_overrides_witness :
  load_state Example.bare_snapshot
    (load_state Example.far_snapshot (Example.sequencer 5 5))
  = set_state (fresh_state 1) (Example.sequencer 5 5).
Proof.
  destruct (load_state_overrides (Example.sequencer 5 5)
              Example.bare_snapshot) as (_ & _ & Hover & Hbare).
  rewrite (Hover Example.far_snapshot); [|reflexivity].
  apply Hbare. reflexivity.
Defined.

Lemma as_batches_errors_witness :
  (exists msg,
     as_batches Example.quartets (Some 1) (Some 1) None
     = Raise (ValueError msg)) /\
  (forall n, as_batches Example.quartets None (Some 0) None = Ok n -> 1 <= n).
Proof.
  split.
  - destruct (as_batches_errors Example.quartets (Some 1) (Some 1) None)
      as (H & _).
    apply H. simpl. lia.
  - intros n.
    destruct (as_batches_errors Example.quartets None (Some 0) None)
      as (_ & _ & _ & H).
    apply H. reflexivity.
Defined.

Lemma step_zero_validation_witness :
  initial_validation Example.paced_at_five
  = (Returns tt, Example.paced_at_five).
Proof.
  destruct (step_zero_validation Example.paced_at_five
              (fst (initial_validation Example.paced_at_five))
              (snd (initial_validation Example.paced_at_five)))
    as (H & _).
  - apply surjective_pairing.
  - destruct H as [Hr Hw]; [left; reflexivity|].
    rewrite (surjective_pairing (initial_validation Example.paced_at_five)).
    by rewrite Hr, Hw.
Defined.

